(** * Max-norm low-rank approximation: a model of [prox-max-norm.ipynb]

    The notebook defines five functions: [get_root] (bisection for the
    L1-ball threshold), [prox_max_norm] (proximal operator of the max norm
    through the Moreau identity), [proj_rank] (truncated SVD), [T] (one
    Douglas-Rachford step) and [compute_low_rank_est] (the driver).

    Two embeddings are given.

    - The first reads NumPy's [float64] as the elements of an ordered field
      [F] and an [ndarray] of shape (m, n) as a matrix ['M[F]_(m, n)].
      [np.linalg.svd], [np.linalg.norm] and [np.linalg.matrix_rank] belong to
      NumPy, not to the notebook: they are parameters of the model, and a
      theorem that needs a property of them says so in a hypothesis.
      A [while] loop takes a fuel argument and answers [OutOfFuel] when the
      fuel is spent before the loop exits.

    - The second ([Module Float64]) reads [float64] as the binary64 numbers
      of the kernel and a flattened array as a list of them, for the two
      functions that contain no call to LAPACK: [get_root] and
      [prox_max_norm].

    The first embedding is exact arithmetic: what is proved there about the
    exit of the bisection loop holds for real numbers. The second one shows
    where rounding changes the answer. *)

From HB Require Import structures.
From mathcomp Require Import boot order algebra.
From mathcomp Require Import lra ring.
From Corelib Require Import PrimFloat.

Set Implicit Arguments.
Unset Strict Implicit.
Unset Printing Implicit Defensive.

Import Order.TTheory GRing.Theory Num.Theory.
Local Open Scope ring_scope.

(** ** Results of a call *)

(** The exceptions the modelled code can raise. *)
Inductive pyexn : Type :=
| ValueError
| UnboundLocalError.

(** A call returns, raises, or is still running when the fuel is spent. *)
Inductive outcome (A : Type) : Type :=
| Done of A
| Raised of pyexn
| OutOfFuel.

Arguments Done {A} _.
Arguments Raised {A} _.
Arguments OutOfFuel {A}.

Definition bind {A B : Type} (c : outcome A) (k : A -> outcome B) : outcome B :=
  match c with
  | Done a => k a
  | Raised e => Raised e
  | OutOfFuel => OutOfFuel
  end.

Notation "c >>= k" := (bind c k) (at level 50, left associativity).

(** The value of a [float64] slot as the driver stores it: a field element,
    or what IEEE division gives when the divisor is zero. *)
Inductive npfloat (F : Type) : Type :=
| Finite of F
| PosInf
| NegInf
| NaN.

Arguments Finite {F} _.
Arguments PosInf {F}.
Arguments NegInf {F}.
Arguments NaN {F}.

Definition is_finite {F : Type} (v : npfloat F) : bool :=
  if v is Finite _ then true else false.

(** The [ord] keyword of [T] and [compute_low_rank_est]. *)
Inductive norm_ord : Type :=
| OrdMax
| OrdFro.

(** ** The notebook over an ordered field *)

Section Notebook.

Variable F : realFieldType.

(** [a / b] on two [np.float64] scalars: no exception, a warning at most. *)
Definition np_div (a b : F) : npfloat F :=
  if b == 0 then
    if a == 0 then NaN else if 0 < a then PosInf else NegInf
  else Finite (a / b).

(** The default [tol=1.0e-10] of [get_root]. *)
Definition tol_default : F := (10%:R ^+ 10)^-1.

(** The default [lambd=1e-3] of [compute_low_rank_est]. *)
Definition lambd_default : F := (10%:R ^+ 3)^-1.

(** The default [iters=500] of [compute_low_rank_est]. *)
Definition iters_default : int := 500%:Z.

Section Shape.

Variables m n : nat.

Implicit Types (x A Z D X : 'M[F]_(m, n)).

(** [np.sum(np.abs(x))] *)
Definition l1_norm x : F := \sum_i \sum_j `|x i j|.

(** The value of [np.max(np.abs(x))] on an array that has an entry. *)
Definition max_abs x : F := \big[Num.max/0]_i \big[Num.max/0]_j `|x i j|.

(** [np.max(np.abs(x))]: NumPy refuses to reduce an empty array. *)
Definition np_max_abs x : outcome F :=
  if (m == 0)%N || (n == 0)%N then Raised ValueError else Done (max_abs x).

(** [np.sum(np.maximum(np.abs(x) - t, 0)) - lambd] *)
Definition residual x (lambd t : F) : F :=
  (\sum_i \sum_j Num.max (`|x i j| - t) 0) - lambd.

(** The [while not converge] loop of [get_root], from the state
    [(t_lo, t_hi)]; [fuel] bounds the number of passes. *)
Fixpoint get_root_loop (fuel : nat) x (lambd tol t_lo t_hi : F) : outcome F :=
  if fuel is fuel'.+1 then
    let t := 2^-1 * (t_lo + t_hi) in
    let res := residual x lambd t in
    let: (t_lo', t_hi') := if 0 < res then (t, t_hi) else (t_lo, t) in
    let converge := `|res| < tol * lambd in
    if converge then Done t
    else get_root_loop fuel' x lambd tol t_lo' t_hi'
  else OutOfFuel.

(** [get_root(x, lambd, tol)] *)
Definition get_root (fuel : nat) x (lambd tol : F) : outcome F :=
  let t_lo := 0 in
  np_max_abs x >>= fun t_hi =>
  get_root_loop fuel x lambd tol t_lo t_hi.

(** [np.sign(x) * np.maximum(np.abs(x) - alpha, 0)] *)
Definition soft_threshold x (alpha : F) : 'M[F]_(m, n) :=
  \matrix_(i, j) (Num.sg (x i j) * Num.max (`|x i j| - alpha) 0).

(** [prox_max_norm(x, lambd)]; [get_root] is called with its default [tol]. *)
Definition prox_max_norm (fuel : nat) x (lambd : F) : outcome 'M[F]_(m, n) :=
  let l1 := l1_norm x in
  if l1 <= lambd then Done (const_mx 0)
  else
    get_root fuel x lambd tol_default >>= fun alpha =>
    let prox := x - soft_threshold x alpha in
    Done prox.

End Shape.

(** What [np.linalg.svd(A, full_matrices=False)] returns for an (m, n)
    array: [U] of shape (m, k), [S] of shape (k,) and [V] of shape (k, n),
    with k = min(m, n). *)
Definition svd_result (m n : nat) : Type :=
  ('M[F]_(m, minn m n) * 'rV[F]_(minn m n) * 'M[F]_(minn m n, n))%type.

(** NumPy's functions that the notebook calls and does not define. *)
Variable svd : forall m n : nat, 'M[F]_(m, n) -> svd_result m n.
Variable norm_fro : forall m n : nat, 'M[F]_(m, n) -> F.
Variable norm_nuc : forall m n : nat, 'M[F]_(m, n) -> F.
Variable matrix_rank : forall m n : nat, 'M[F]_(m, n) -> nat.

(** Where the slice [S[r:]] of an array of length [k] starts: a negative
    [r] counts from the end. *)
Definition slice_start (r : int) (k : nat) : nat :=
  match r with
  | Posz p => p
  | Negz p => (k - p.+1)%N
  end.

(** [S[r:] = 0] *)
Definition zero_from (k : nat) (s : 'rV[F]_k) (r : int) : 'rV[F]_k :=
  \row_j (if (slice_start r k <= j)%N then 0 else s 0 j).

(** [U * S], the broadcast of a vector over the rows of [U]. *)
Definition scale_cols (m k : nat) (U : 'M[F]_(m, k)) (s : 'rV[F]_k) : 'M[F]_(m, k) :=
  \matrix_(i, j) (U i j * s 0 j).

Section Driver.

Variables m n : nat.

Implicit Types (x A Z D X : 'M[F]_(m, n)).

(** [proj_rank(A, r)] *)
Definition proj_rank A (r : int) : 'M[F]_(m, n) :=
  let: (U, s, V) := svd A in
  let s := zero_from s r in
  scale_cols U s *m V.

(** The module-level name [D] that the body of [T] reads: [T] has no
    parameter of that name. *)
Variable D_global : 'M[F]_(m, n).

(** [T(Z, lambd, r, ord)]; [ord] is not used in the body. *)
Definition T (fuel : nat) Z (lambd : F) (r : int) (ord : norm_ord)
  : outcome ('M[F]_(m, n) * 'M[F]_(m, n)) :=
  let X := proj_rank Z r in
  prox_max_norm fuel (2%:R *: X - Z - D_global) lambd >>= fun P =>
  let Z := Z + P + D_global - X in
  Done (X, Z).

(** One printed line of the progress report. *)
Record log_line : Type := LogLine {
  log_k : nat;
  log_step : F;
  log_fro : npfloat F;
  log_max : npfloat F;
  log_nuc : npfloat F;
  log_rank : npfloat F
}.

(** The local variables of [compute_low_rank_est] and what was printed.
    [X] is unbound until the first pass of the loop assigns it. *)
Record driver_state : Type := DriverState {
  st_Z : 'M[F]_(m, n);
  st_X : option 'M[F]_(m, n);
  st_err_max : seq (npfloat F);
  st_err_fro : seq (npfloat F);
  st_rank : seq (npfloat F);
  st_norm : seq (npfloat F);
  st_out : seq log_line
}.

(** The body of the [for k in range(iters)] loop. *)
Definition driver_body (fuel : nat) D (lambd : F) (r : int) (ord : norm_ord)
    (st : driver_state) (k : nat) : outcome driver_state :=
  let Z_p := st_Z st in
  T fuel (st_Z st) lambd r ord >>= fun XZ =>
  let: (X, Z) := XZ in
  np_max_abs (X - D) >>= fun num_max =>
  np_max_abs D >>= fun den_max =>
  let err_max := set_nth (Finite 0) (st_err_max st) k (np_div num_max den_max) in
  let err_fro := set_nth (Finite 0) (st_err_fro st) k
                   (np_div (norm_fro (X - D)) (norm_fro D)) in
  let rank := set_nth (Finite 0) (st_rank st) k (Finite (matrix_rank X)%:R) in
  let norm := set_nth (Finite 0) (st_norm st) k (Finite (norm_nuc X)) in
  let out :=
    if (k %% 10 == 0)%N then
      rcons (st_out st)
        (LogLine k (norm_fro (Z - Z_p)) (nth (Finite 0) err_fro k)
           (nth (Finite 0) err_max k) (nth (Finite 0) norm k)
           (nth (Finite 0) rank k))
    else st_out st in
  Done (DriverState Z (Some X) err_max err_fro rank norm out).

(** The [for] loop over the indices [ks]. *)
Fixpoint driver_loop (fuel : nat) D (lambd : F) (r : int) (ord : norm_ord)
    (ks : seq nat) (st : driver_state) : outcome driver_state :=
  if ks is k :: ks' then
    driver_body fuel D lambd r ord st k >>= fun st' =>
    driver_loop fuel D lambd r ord ks' st'
  else Done st.

(** What [compute_low_rank_est] returns: [X, err_max, err_fro, rank, norm]. *)
Record estimate : Type := Estimate {
  est_X : 'M[F]_(m, n);
  est_err_max : seq (npfloat F);
  est_err_fro : seq (npfloat F);
  est_rank : seq (npfloat F);
  est_norm : seq (npfloat F)
}.

(** The run of [compute_low_rank_est] up to its [return]: the final state
    of the locals. [np.zeros] rejects a negative length. *)
Definition driver_run (fuel : nat) D (r : int) (lambd : F) (ord : norm_ord)
    (iters : int) : outcome driver_state :=
  match iters with
  | Negz _ => Raised ValueError
  | Posz niters =>
      let zeros := nseq niters (Finite 0) in
      driver_loop fuel D lambd r ord (iota 0 niters)
        (DriverState D None zeros zeros zeros zeros [::])
  end.

(** [compute_low_rank_est(D, r, lambd, ord, iters)] *)
Definition compute_low_rank_est (fuel : nat) D (r : int) (lambd : F)
    (ord : norm_ord) (iters : int) : outcome estimate :=
  driver_run fuel D r lambd ord iters >>= fun st =>
  match st_X st with
  | Some X =>
      Done (Estimate X (st_err_max st) (st_err_fro st) (st_rank st) (st_norm st))
  | None => Raised UnboundLocalError
  end.

End Driver.

End Notebook.

(** ** The root finder and the proximal operator on binary64 numbers *)

Module Float64.

Local Open Scope float_scope.

(** [np.maximum(a, b)] on two scalars; a NaN operand is returned. *)
Definition maximum (a b : float) : float :=
  if is_nan a then a else if is_nan b then b else if ltb a b then b else a.

(** [np.sign(a)] *)
Definition sign (a : float) : float :=
  if is_nan a then a else if ltb 0 a then 1 else if ltb a 0 then -1 else 0.

(** [np.sum(x)] on a flattened array, added from left to right: NumPy adds
    in this order when the array has fewer than 8 entries. *)
Definition np_sum (x : seq float) : float := foldl add 0 x.

(** [np.max(x)]: NumPy refuses to reduce an empty array. *)
Definition np_max (x : seq float) : outcome float :=
  if x is a :: x' then Done (foldl maximum a x') else Raised ValueError.

(** [np.sum(np.maximum(np.abs(x) - t, 0)) - lambd] *)
Definition residual (x : seq float) (lambd t : float) : float :=
  np_sum [seq maximum (abs a - t) 0 | a <- x] - lambd.

(** The [while not converge] loop of [get_root]. *)
Fixpoint get_root_loop (fuel : nat) (x : seq float) (lambd tol t_lo t_hi : float)
  : outcome float :=
  if fuel is fuel'.+1 then
    let t := 0.5 * (t_lo + t_hi) in
    let res := residual x lambd t in
    let: (t_lo', t_hi') := if ltb 0 res then (t, t_hi) else (t_lo, t) in
    let converge := ltb (abs res) (tol * lambd) in
    if converge then Done t
    else get_root_loop fuel' x lambd tol t_lo' t_hi'
  else OutOfFuel.

(** The default [tol=1.0e-10] of [get_root]. *)
Definition tol_default : float := 1e-10.

(** [get_root(x, lambd, tol)] *)
Definition get_root (fuel : nat) (x : seq float) (lambd tol : float) : outcome float :=
  let t_lo := 0 in
  np_max [seq abs a | a <- x] >>= fun t_hi =>
  get_root_loop fuel x lambd tol t_lo t_hi.

(** [prox_max_norm(x, lambd)] on a flattened array. *)
Definition prox_max_norm (fuel : nat) (x : seq float) (lambd : float)
  : outcome (seq float) :=
  let l1_norm := np_sum [seq abs a | a <- x] in
  if leb l1_norm lambd then Done [seq 0 | _ <- x]
  else
    get_root fuel x lambd tol_default >>= fun alpha =>
    Done [seq a - sign a * maximum (abs a - alpha) 0 | a <- x].

(** The state [(t_lo, t_hi)] after [k] passes of the loop, none of which
    met the exit test; [None] when one did. *)
Fixpoint passes (k : nat) (x : seq float) (lambd tol t_lo t_hi : float)
  : option (float * float) :=
  if k is k'.+1 then
    let t := 0.5 * (t_lo + t_hi) in
    let res := residual x lambd t in
    if ltb (abs res) (tol * lambd) then None
    else if ltb 0 res then passes k' x lambd tol t t_hi
    else passes k' x lambd tol t_lo t
  else Some (t_lo, t_hi).

End Float64.

(** ** What the specification compares the code with *)

Section Reference.

Variable F : realFieldType.

(** The objective [lambd * |u|_oo + 1/2 * |u - x|^2] whose minimizer is the
    proximal operator of the max norm at [x]. *)
Definition prox_objective (m n : nat) (x : 'M[F]_(m, n)) (lambd : F)
    (u : 'M[F]_(m, n)) : F :=
  lambd * max_abs u + 2^-1 * \sum_i \sum_j (u i j - x i j) ^+ 2.

(** [p] is the unique minimizer of the objective. *)
Definition is_prox (m n : nat) (x : 'M[F]_(m, n)) (lambd : F)
    (p : 'M[F]_(m, n)) : Prop :=
  forall u, u != p -> prox_objective x lambd p < prox_objective x lambd u.

(** The contract of [np.linalg.svd(A, full_matrices=False)]: the factors
    give [A] back, the columns of [U] and the rows of [V] are orthonormal,
    the singular values are non-negative and in descending order. *)
Definition svd_spec (m n : nat) (A : 'M[F]_(m, n)) (usv : svd_result F m n)
  : Prop :=
  let: (U, s, V) := usv in
  [/\ scale_cols U s *m V = A,
      U^T *m U = 1%:M,
      V *m V^T = 1%:M,
      forall j, 0 <= s 0 j
    & forall i j : 'I_(minn m n), (i <= j)%N -> s 0 j <= s 0 i].

Section Iterates.

Variable svd : forall m n : nat, 'M[F]_(m, n) -> svd_result F m n.
Variables m n : nat.
Variable D_global : 'M[F]_(m, n).

(** The splitting variable before pass [k] of the driver's loop, started
    from [D]: [k] applications of [T]. *)
Fixpoint iterate_Z (fuel : nat) (D : 'M[F]_(m, n)) (lambd : F) (r : int)
    (ord : norm_ord) (k : nat) : outcome 'M[F]_(m, n) :=
  if k is k'.+1 then
    iterate_Z fuel D lambd r ord k' >>= fun Z =>
    T svd D_global fuel Z lambd r ord >>= fun XZ => Done XZ.2
  else Done D.

(** The iterate [X] that pass [k] produces. *)
Definition iterate_X (fuel : nat) (D : 'M[F]_(m, n)) (lambd : F) (r : int)
    (ord : norm_ord) (k : nat) : outcome 'M[F]_(m, n) :=
  iterate_Z fuel D lambd r ord k >>= fun Z =>
  T svd D_global fuel Z lambd r ord >>= fun XZ => Done XZ.1.

End Iterates.

Section Diagnostics.

Variable norm_fro : forall m n : nat, 'M[F]_(m, n) -> F.
Variable norm_nuc : forall m n : nat, 'M[F]_(m, n) -> F.
Variable matrix_rank : forall m n : nat, 'M[F]_(m, n) -> nat.
Variables m n : nat.

(** The four numbers the loop body stores for an iterate [X]: they are
    computed from [X] and [D]. *)
Definition diagnostics (X D : 'M[F]_(m, n))
  : npfloat F * npfloat F * npfloat F * npfloat F :=
  (np_div (max_abs (X - D)) (max_abs D),
   np_div (norm_fro (X - D)) (norm_fro D),
   Finite (matrix_rank X)%:R,
   Finite (norm_nuc X)).

(** Entry [k] of the four arrays [err_max], [err_fro], [rank], [norm]. *)
Definition entries (em ef rk nm : seq (npfloat F)) (k : nat)
  : npfloat F * npfloat F * npfloat F * npfloat F :=
  (nth (Finite 0) em k, nth (Finite 0) ef k, nth (Finite 0) rk k,
   nth (Finite 0) nm k).

(** Entry [k] of the four arrays in a state of the driver. *)
Definition st_entries (st : driver_state F m n) (k : nat) :=
  entries (st_err_max st) (st_err_fro st) (st_rank st) (st_norm st) k.

(** The four arrays of a state all have length [N]. *)
Definition st_sized (N : nat) (st : driver_state F m n) : Prop :=
  [/\ size (st_err_max st) = N, size (st_err_fro st) = N,
      size (st_rank st) = N & size (st_norm st) = N].

End Diagnostics.

End Reference.

(** A number of passes after which the bisection has met its exit test,
    as a function of the input, the budget and the tolerance. *)
Definition halvings_bound (F : archiRealFieldType) (m n : nat)
    (x : 'M[F]_(m, n)) (lambd tol : F) : nat :=
  (Num.bound ((m * n)%:R * max_abs x / (tol * lambd))).+1.

(** ** Instances of NumPy's functions for the examples *)

Section Instances.

Variable F : realFieldType.

(** The decomposition read off the diagonal: it is a singular value
    decomposition of a matrix whose only non-zero entries are on the
    diagonal, non-negative and in descending order. *)
Definition svd_diag (m n : nat) (A : 'M[F]_(m, n)) : svd_result F m n :=
  (pid_mx (minn m n),
   \row_(j < minn m n)
      A (widen_ord (geq_minl m n) j) (widen_ord (geq_minr m n) j),
   pid_mx (minn m n)).

(** The sum of the squares of the entries; on the examples it stands for
    the Frobenius norm, its square root. *)
Definition sum_squares (m n : nat) (A : 'M[F]_(m, n)) : F :=
  \sum_i \sum_j A i j ^+ 2.

(** The exact rank; on the examples it stands for [matrix_rank]. *)
Definition exact_rank (m n : nat) (A : 'M[F]_(m, n)) : nat := \rank A.

(** The singular values of that decomposition, summed: on the examples it
    stands for the nuclear norm. *)
Definition nuc_diag (m n : nat) (A : 'M[F]_(m, n)) : F :=
  \sum_j (svd_diag A).1.2 0 j.

End Instances.

(** The inputs of the examples: a 2 x 3 target with ones on the diagonal,
    and a 2 x 3 array of ones. *)
Definition ex_D : 'M[rat]_(2, 3) := pid_mx 2.
Definition ex_x : 'M[rat]_(2, 3) := const_mx 1.

(** ** The root finder in exact arithmetic *)

(** The residual is Lipschitz in the threshold, positive at 0 under the
    precondition and negative at [max |x|]; so the residual at the midpoint
    of a bracketing interval is bounded by its width, which halves at each
    pass. *)

Section RootFinder.

Variable F : realFieldType.
Variables m n : nat.
Implicit Types (x : 'M[F]_(m, n)) (lambd tol t : F).

(** One entry of the sum moves by at most the change of the threshold. *)
Lemma soft_entry_lip (a s t : F) :
  `|Num.max (a - s) 0 - Num.max (a - t) 0| <= `|s - t|.
Proof.
have := ler_norm (s - t); have := ler_norm (t - s); rewrite (distrC t s).
move: `|s - t| => N h1 h2; rewrite ler_norml /Num.max.
by case: (ltP (a - s) 0) => h3; case: (ltP (a - t) 0) => h4; lra.
Qed.

Lemma residual_lip x lambd s t :
  `|residual x lambd s - residual x lambd t| <= (m * n)%:R * `|s - t|.
Proof.
rewrite /residual; set A := \sum_i _; set B := \sum_i _.
have -> : A - lambd - (B - lambd) = A - B by rewrite opprB addrA subrK.
rewrite /A /B -sumrB; apply: le_trans (ler_norm_sum _ _ _) _.
have -> : (m * n)%:R * `|s - t| = \sum_(i < m) \sum_(j < n) `|s - t| :> F.
  by rewrite sumr_const card_ord sumr_const card_ord -mulrnA mulr_natl mulnC.
apply: ler_sum => i _; rewrite -sumrB.
apply: le_trans (ler_norm_sum _ _ _) _.
by apply: ler_sum => j _; exact: soft_entry_lip.
Qed.

Lemma max_abs_ge0 x : 0 <= max_abs x.
Proof. exact: bigmax_ge_id. Qed.

Lemma max_abs_ge x i j : `|x i j| <= max_abs x.
Proof.
apply: le_trans (le_bigmax _ (fun i => \big[Num.max/0]_j `|x i j|) i).
exact: (le_bigmax _ (fun j => `|x i j|) j).
Qed.

Lemma residual0 x lambd : residual x lambd 0 = l1_norm x - lambd.
Proof.
rewrite /residual /l1_norm; congr (_ - _).
apply: eq_bigr => i _; apply: eq_bigr => j _.
by rewrite subr0; apply/max_idPl.
Qed.

Lemma residual_max_abs x lambd : residual x lambd (max_abs x) = - lambd.
Proof.
rewrite /residual big1 ?add0r // => i _; rewrite big1 // => j _.
by apply/max_idPr; rewrite subr_le0 max_abs_ge.
Qed.

Lemma l1_norm_empty x : (m == 0)%N || (n == 0)%N -> l1_norm x = 0.
Proof.
rewrite /l1_norm; case/orP => /eqP e.
  by rewrite big1 // => i _; have : (i < 0)%N by rewrite -[X in (_ < X)%N]e.
rewrite big1 // => i _; rewrite big1 // => j _.
by have : (j < 0)%N by rewrite -[X in (_ < X)%N]e.
Qed.

(** The residual at the midpoint of a bracketing interval is at most
    (number of entries) * (half the width). *)
Lemma residual_mid x lambd lo hi :
  lo <= hi -> 0 < residual x lambd lo -> residual x lambd hi <= 0 ->
  `|residual x lambd (2^-1 * (lo + hi))| <= (m * n)%:R * (2^-1 * (hi - lo)).
Proof.
move=> hle hlo hhi; set t := 2^-1 * (lo + hi).
have ht1 : `|t - hi| = 2^-1 * (hi - lo).
  by rewrite ler0_norm /t; lra.
have ht2 : `|lo - t| = 2^-1 * (hi - lo).
  by rewrite ler0_norm /t; lra.
have h1 := residual_lip x lambd t hi; have h2 := residual_lip x lambd lo t.
rewrite {}ht1 in h1; rewrite {}ht2 in h2.
move: h1 h2; rewrite !ler_norml.
move: (residual x lambd t) (residual x lambd lo) (residual x lambd hi) hlo hhi.
move=> rt rlo rhi hlo hhi; set W := _%:R * _ => /andP[a1 a2] /andP[b1 b2].
by apply/andP; split; lra.
Qed.

(** From a bracketing interval narrow enough for [fuel + 1] halvings the
    loop returns, and what it returns passes the exit test and lies in the
    interval. *)
Lemma get_root_loop_converges (fuel : nat) x lambd tol lo hi :
  lo <= hi -> 0 < residual x lambd lo -> residual x lambd hi <= 0 ->
  (m * n)%:R * (hi - lo) < tol * lambd * 2 ^+ fuel.+1 ->
  exists alpha, [/\ get_root_loop fuel.+1 x lambd tol lo hi = Done alpha,
    `|residual x lambd alpha| < tol * lambd & lo <= alpha <= hi].
Proof.
elim: fuel lo hi => [|k IH] lo hi hle hlo hhi hw.
  have hm := residual_mid hle hlo hhi.
  have hc : `|residual x lambd (2^-1 * (lo + hi))| < tol * lambd.
    by apply: le_lt_trans hm _; rewrite expr1 in hw; lra.
  exists (2^-1 * (lo + hi)); split=> //; last by apply/andP; split; lra.
  by rewrite /=; case: ifP => _; rewrite hc.
have hm := residual_mid hle hlo hhi.
rewrite [get_root_loop _ _ _ _ _ _]/=.
set t := 2^-1 * (lo + hi) in hm *; set res := residual x lambd t in hm *.
have hlt : lo <= t <= hi by rewrite /t; apply/andP; split; lra.
case: (ltP 0 res) => hres.
  case: ifP => hc; first by exists t.
  have [] := IH t hi _ hres hhi.
  - by rewrite /t; lra.
  - rewrite exprS in hw; rewrite /t.
    have -> : hi - 2^-1 * (lo + hi) = 2^-1 * (hi - lo) by lra.
    by rewrite mulrCA; lra.
  move=> alpha [e1 e2 /andP[e3 e4]]; exists alpha; split=> //.
  by apply/andP; split=> //; case/andP: hlt => *; lra.
case: ifP => hc; first by exists t.
have [] := IH lo t _ hlo hres.
- by rewrite /t; lra.
- rewrite exprS in hw; rewrite /t.
  have -> : 2^-1 * (lo + hi) - lo = 2^-1 * (hi - lo) by lra.
  by rewrite mulrCA; lra.
move=> alpha [e1 e2 /andP[e3 e4]]; exists alpha; split=> //.
by apply/andP; split=> //; case/andP: hlt => *; lra.
Qed.

(** More fuel does not change a result. *)
Lemma get_root_loop_mono (fuel k : nat) x lambd tol lo hi alpha :
  get_root_loop fuel x lambd tol lo hi = Done alpha ->
  get_root_loop (fuel + k) x lambd tol lo hi = Done alpha.
Proof.
elim: fuel lo hi => [|fuel IH] lo hi //=.
by case: ifP => _; case: ifP => // _; exact: IH.
Qed.


Lemma max_abs0 : max_abs (0 : 'M[F]_(m, n)) = 0.
Proof.
apply/le_anti; rewrite max_abs_ge0 andbT.
rewrite /max_abs; apply/bigmax_leP; split=> // i _.
by apply/bigmax_leP; split=> // j _; rewrite mxE normr0.
Qed.

Lemma tol_default_gt0 : 0 < tol_default F.
Proof. by rewrite /tol_default invr_gt0 exprn_gt0 // ltr0n. Qed.

Lemma np_max_abs_done x v : np_max_abs x = Done v -> v = max_abs x.
Proof. by rewrite /np_max_abs; case: ifP => // _ [->]. Qed.

Lemma get_root_mono (fuel k : nat) x lambd tol alpha :
  get_root fuel x lambd tol = Done alpha ->
  get_root (fuel + k) x lambd tol = Done alpha.
Proof.
rewrite /get_root; case: (np_max_abs x) => //= t_hi.
exact: get_root_loop_mono.
Qed.

(** With a zero budget the exit test [|res| < tol * 0] never holds. *)
Lemma get_root_loop_lambd0 (fuel : nat) x tol lo hi :
  get_root_loop fuel x 0 tol lo hi = OutOfFuel.
Proof.
elim: fuel lo hi => [|fuel IH] lo hi //=.
by rewrite mulr0 normr_lt0; case: ifP => _; exact: IH.
Qed.

End RootFinder.

Section RootFinderTotal.

Variable F : archiRealFieldType.
Variables m n : nat.
Implicit Types (x : 'M[F]_(m, n)) (lambd tol t : F).

Lemma get_root_converges x lambd tol :
  0 < lambd -> 0 < tol -> lambd < l1_norm x ->
  exists alpha, [/\ get_root (halvings_bound x lambd tol) x lambd tol = Done alpha,
    `|residual x lambd alpha| < tol * lambd & 0 <= alpha <= max_abs x].
Proof.
move=> hl ht hx.
have hne : (m == 0)%N || (n == 0)%N = false.
  by apply/negbTE/negP => /(l1_norm_empty x) e; rewrite e in hx; lra.
rewrite /get_root /np_max_abs hne /bind /halvings_bound.
apply: get_root_loop_converges; rewrite ?max_abs_ge0 //.
- by rewrite residual0; lra.
- by rewrite residual_max_abs; lra.
rewrite subr0; set W := _%:R * _.
have hW : 0 <= W by rewrite mulr_ge0 // max_abs_ge0.
have htl : 0 < tol * lambd by rewrite mulr_gt0.
have := @upper_nthrootP F (W / (tol * lambd)) _ (leqnn _).
rewrite ltr_pdivrMr // mulrC => h; apply: lt_le_trans h _.
by rewrite ler_pM2l // exprS ler_peMl // ?exprn_ge0 // ler1n.
Qed.

End RootFinderTotal.


(** ** The proximal operator *)

Section Prox.

Variable F : realFieldType.
Variables m n : nat.
Implicit Types (x : 'M[F]_(m, n)) (lambd tol t : F).

Lemma prox_max_norm_mono (fuel k : nat) x lambd p :
  prox_max_norm fuel x lambd = Done p ->
  prox_max_norm (fuel + k) x lambd = Done p.
Proof.
rewrite /prox_max_norm; case: ifP => // _.
case e: (get_root fuel x lambd _) => [alpha| |] //=.
by rewrite (get_root_mono k e).
Qed.

Lemma prox_max_norm_small (fuel : nat) x lambd :
  l1_norm x <= lambd -> prox_max_norm fuel x lambd = Done (const_mx 0).
Proof. by rewrite /prox_max_norm => ->. Qed.

Lemma prox_max_norm_lambd0 (fuel : nat) x p :
  0 < l1_norm x -> prox_max_norm fuel x 0 <> Done p.
Proof.
move=> hx; rewrite /prox_max_norm leNgt hx /= /get_root.
by case: (np_max_abs x) => //= t; rewrite get_root_loop_lambd0.
Qed.

End Prox.

Section ProxTotal.

Variable F : archiRealFieldType.
Variables m n : nat.
Implicit Types (x : 'M[F]_(m, n)) (lambd tol t : F).

Lemma prox_max_norm_large x lambd :
  0 < lambd -> lambd < l1_norm x ->
  exists alpha,
    [/\ prox_max_norm (halvings_bound x lambd (tol_default F)) x lambd
          = Done (x - soft_threshold x alpha),
        `|residual x lambd alpha| < tol_default F * lambd
      & 0 <= alpha <= max_abs x].
Proof.
move=> hl hx.
have [alpha [e1 e2 e3]] := get_root_converges hl (tol_default_gt0 F) hx.
exists alpha; split=> //.
by rewrite /prox_max_norm leNgt hx /= e1.
Qed.

Lemma prox_max_norm_total x lambd :
  0 < lambd ->
  exists p, forall fuel, (halvings_bound x lambd (tol_default F) <= fuel)%N ->
    prox_max_norm fuel x lambd = Done p.
Proof.
move=> hl; case: (leP (l1_norm x) lambd) => hx.
  by exists (const_mx 0) => fuel _; exact: prox_max_norm_small.
have [alpha [e _ _]] := prox_max_norm_large hl hx.
exists (x - soft_threshold x alpha) => fuel hf.
by rewrite -(subnKC hf); exact: prox_max_norm_mono.
Qed.

End ProxTotal.

(** ** Optimality of the Moreau formula *)

Section Moreau.

Variable F : realFieldType.
Variables m n : nat.
Implicit Types (x u p S : 'M[F]_(m, n)) (lambd : F).

Lemma sum2_ge0 (f : 'I_m -> 'I_n -> F) :
  (forall i j, 0 <= f i j) -> 0 <= \sum_i \sum_j f i j.
Proof. by move=> h; apply: sumr_ge0 => i _; apply: sumr_ge0 => j _. Qed.

Lemma sum2_le (f g : 'I_m -> 'I_n -> F) :
  (forall i j, f i j <= g i j) ->
  \sum_i \sum_j f i j <= \sum_i \sum_j g i j.
Proof. by move=> h; apply: ler_sum => i _; apply: ler_sum => j _. Qed.

Lemma sum2D (f g : 'I_m -> 'I_n -> F) :
  \sum_i \sum_j (f i j + g i j) = \sum_i \sum_j f i j + \sum_i \sum_j g i j.
Proof. by rewrite -big_split; apply: eq_bigr => i _; rewrite big_split. Qed.

Lemma sum2Ml (c : F) (f : 'I_m -> 'I_n -> F) :
  \sum_i \sum_j (c * f i j) = c * \sum_i \sum_j f i j.
Proof. by rewrite mulr_sumr; apply: eq_bigr => i _; rewrite mulr_sumr. Qed.

Lemma sum2_sqr_gt0 u : u != 0 -> 0 < \sum_i \sum_j u i j ^+ 2.
Proof.
move=> hu.
have h0 : 0 <= \sum_i \sum_j u i j ^+ 2.
  by apply: sum2_ge0 => i j; exact: sqr_ge0.
rewrite lt_def h0 andbT; apply: contraNneq hu => /eqP.
have hrow i : 0 <= \sum_j u i j ^+ 2.
  by apply: sumr_ge0 => j _; exact: sqr_ge0.
rewrite psumr_eq0 // => /allP h; apply/eqP/matrixP => i j; rewrite mxE.
have hi : \sum_j u i j ^+ 2 == 0 by exact: (h i (mem_index_enum _)).
have hsq j' : true -> 0 <= u i j' ^+ 2 by move=> _; exact: sqr_ge0.
move: hi; rewrite (psumr_eq0 _ hsq) => /allP/(_ j (mem_index_enum _)).
by rewrite /= sqrf_eq0 => /eqP.
Qed.

(** A certificate of optimality: [p = x - S] with [S] in the L1 ball of
    radius [lambd] and aligned with [p]. *)
Lemma moreau_certificate x lambd p S :
  p = x - S -> l1_norm S <= lambd ->
  \sum_i \sum_j p i j * S i j = lambd * max_abs p ->
  is_prox x lambd p.
Proof.
move=> ep hS hpS u hu.
have hd : 0 < \sum_i \sum_j (u - p) i j ^+ 2 by rewrite sum2_sqr_gt0 // subr_eq0.
have huS : \sum_i \sum_j u i j * S i j <= lambd * max_abs u.
  apply: (@le_trans _ _ (max_abs u * l1_norm S)); last first.
    by rewrite mulrC ler_wpM2r ?max_abs_ge0.
  rewrite /l1_norm -sum2Ml; apply: sum2_le => i j.
  apply: le_trans (ler_norm _) _; rewrite normrM ler_wpM2r //.
  exact: max_abs_ge.
have hsplit : \sum_i \sum_j (u i j - x i j) ^+ 2
  = \sum_i \sum_j (p i j - x i j) ^+ 2 + \sum_i \sum_j (u - p) i j ^+ 2
    + (-2%:R) * \sum_i \sum_j u i j * S i j
    + 2%:R * \sum_i \sum_j p i j * S i j.
  rewrite -!sum2Ml -!sum2D; apply: eq_bigr => i _; apply: eq_bigr => j _.
  by rewrite ep !mxE; ring.
rewrite /prox_objective hsplit hpS.
move: hd huS; set A := \sum_i _; set B := \sum_i _; set C := \sum_i _.
by move: (max_abs p) (max_abs u) => Mp Mu; lra.
Qed.

Lemma norm_if (z : F) : `|z| = if z < 0 then - z else z.
Proof. by case: (ltP z 0) => h; [rewrite ltr0_norm | rewrite ger0_norm]. Qed.

(** One entry [a] of the input, its soft-thresholded part [s] and the
    entry [a - s] of the result. *)
Lemma soft_entry (a alpha w s : F) :
  0 <= alpha -> w = Num.max (`|a| - alpha) 0 -> s = Num.sg a * w ->
  [/\ `|s| = w, (a - s) * s = alpha * w, `|a - s| <= alpha
     & 0 < w -> `|a - s| = alpha].
Proof.
move=> ha ew es.
have hw : w = if `|a| - alpha < 0 then 0 else `|a| - alpha by rewrite ew.
have hs : Num.sg a = if a == 0 then 0 else if a < 0 then -1 else 1 by [].
move: hw hs es {ew}; rewrite (norm_if a); move: (Num.sg a) => sg.
case: (eqVneq a 0) => h3; case: (ltP a 0) => h2; case: ltP => h1 -> -> ->;
  rewrite ?mulr0 ?mul0r ?mulN1r ?mul1r ?subr0 ?ltxx ?opprK ?normr0;
  rewrite ?(norm_if (_ - _)) ?(norm_if (_ + _)) ?(norm_if a).
all: split=> //; rewrite ?normrN ?(norm_if (_ - _));
  do ?[case: ltP => ?]; move=> *; nra.
Qed.

Lemma l1_norm_soft_threshold x lambd alpha :
  0 <= alpha -> l1_norm (soft_threshold x alpha) = residual x lambd alpha + lambd.
Proof.
move=> ha; rewrite /residual subrK /l1_norm.
apply: eq_bigr => i _; apply: eq_bigr => j _; rewrite mxE.
by have [-> _ _ _] := soft_entry ha (erefl _) (erefl (Num.sg (x i j) * _)).
Qed.

(** The degenerate branch returns the minimizer. *)
Lemma prox_zero_exact x lambd : l1_norm x <= lambd -> is_prox x lambd 0.
Proof.
move=> hx; apply: (@moreau_certificate _ _ _ x) => //.
  by rewrite subrr.
rewrite max_abs0 mulr0 big1 // => i _; rewrite big1 // => j _.
by rewrite mxE mul0r.
Qed.

(** At an exact root of the residual the formula of the second branch is
    the minimizer. *)
Lemma prox_root_exact x lambd alpha :
  0 < lambd -> 0 <= alpha -> residual x lambd alpha = 0 ->
  is_prox x lambd (x - soft_threshold x alpha).
Proof.
move=> hl ha hr; set S := soft_threshold x alpha; set p := x - S.
have hS : l1_norm S = lambd by rewrite (l1_norm_soft_threshold x lambd) // hr add0r.
have hw : \sum_i \sum_j Num.max (`|x i j| - alpha) 0 = lambd.
  by move: hr; rewrite /residual => /eqP; rewrite subr_eq0 => /eqP.
have hpS : \sum_i \sum_j p i j * S i j = lambd * alpha.
  rewrite -{1}hw mulrC -sum2Ml; apply: eq_bigr => i _; apply: eq_bigr => j _.
  by rewrite !mxE; have [_ -> _ _] := soft_entry ha (erefl _) (erefl (Num.sg (x i j) * _)).
have hp : max_abs p = alpha.
  apply/le_anti/andP; split.
    rewrite /max_abs; apply/bigmax_leP; split=> // i _.
    apply/bigmax_leP; split=> // j _; rewrite !mxE.
    by have [_ _ -> _] := soft_entry ha (erefl _) (erefl (Num.sg (x i j) * _)).
  have : [exists i, [exists j, 0 < Num.max (`|x i j| - alpha) 0]].
    rewrite -[X in is_true X]negbK negb_exists; apply/negP => /forallP h.
    move: hl; rewrite -hw big1 ?ltxx // => i _; rewrite big1 // => j _.
    have := h i; rewrite negb_exists => /forallP/(_ j); rewrite -leNgt => hle.
    by apply/le_anti; rewrite hle le_max lexx orbT.
  case/existsP => i /existsP[j hij].
  apply: le_trans (max_abs_ge p i j); rewrite !mxE.
  by have [_ _ _ ->] := soft_entry ha (erefl _) (erefl (Num.sg (x i j) * _)).
by apply: (@moreau_certificate _ _ _ S) => //; rewrite ?hS // hpS hp.
Qed.

End Moreau.

(** ** Arrays of shape (1, 1) *)

Section OneByOne.

Variable F : realFieldType.


Implicit Types (a : F).

Lemma l1_norm11 a : l1_norm (const_mx a : 'M[F]_(1, 1)) = `|a|.
Proof. by rewrite /l1_norm !big_ord1 mxE. Qed.

Lemma max_abs11 (u : 'M[F]_(1, 1)) : max_abs u = `|u 0 0|.
Proof.
rewrite /max_abs big_ord_recl big_ord0 big_ord_recl big_ord0.
have h : Num.max `|u 0 0| 0 = `|u 0 0| by apply/max_idPl.
by rewrite h h.
Qed.

Lemma residual11 a lambd t :
  residual (const_mx a : 'M[F]_(1, 1)) lambd t = Num.max (`|a| - t) 0 - lambd.
Proof. by rewrite /residual !big_ord1 mxE. Qed.

Lemma prox_objective11 (x u : 'M[F]_(1, 1)) lambd :
  prox_objective x lambd u = lambd * `|u 0 0| + 2^-1 * (u 0 0 - x 0 0) ^+ 2.
Proof. by rewrite /prox_objective max_abs11 !big_ord1. Qed.

(** The root finder on the 1 x 1 array [[2]] with budget 1: the first
    midpoint is the root. *)
Example get_root_first_midpoint :
  get_root 1 (const_mx 2 : 'M[F]_(1, 1)) 1 (tol_default F) = Done 1.
Proof.
rewrite /get_root /np_max_abs /= max_abs11 mxE residual11 add0r.
have -> : `|2 : F| = 2 by rewrite ger0_norm //; lra.
have -> : 2^-1 * 2 = 1 :> F by lra.
have -> : Num.max (2 - 1) 0 - 1 = 0 :> F.
  have -> : 2 - 1 = 1 :> F by lra.
  have -> : Num.max 1 0 = 1 :> F by apply/max_idPl; exact: ler01.
  by rewrite subrr.
by rewrite normr0 mulr1 tol_default_gt0 ltxx.
Qed.

(** One pass of the bisection on the 1 x 1 array [[2 + tol]] with budget 1
    meets the exit test at [1 + tol / 2], short of the root [1 + tol]. *)
Lemma prox_max_norm_inexact :
  let tol := tol_default F in
  let x : 'M[F]_(1, 1) := const_mx (2 + tol) in
  let p : 'M[F]_(1, 1) := const_mx (1 + tol / 2) in
  prox_max_norm 1 x 1 = Done p /\ ~ is_prox x 1 p.
Proof.
move=> tol x p.
have ht : 0 < tol by rewrite /tol /tol_default invr_gt0 exprn_gt0 // ltr0n.
have hx : `|2 + tol| = 2 + tol by rewrite ger0_norm //; lra.
split.
- rewrite /prox_max_norm l1_norm11 hx.
  have -> : (2 + tol <= 1) = false by apply/negbTE; rewrite -ltNge; lra.
  rewrite /get_root /np_max_abs /= max_abs11 mxE hx residual11 hx add0r.
  have -> : 2 + tol - 2^-1 * (2 + tol) = tol / 2 + 1 by lra.
  have hmax : Num.max (tol / 2 + 1) 0 = tol / 2 + 1 by apply/max_idPl; lra.
  rewrite hmax.
  move=> {hmax}.
  have hsg : Num.sg (2 + tol) = 1 by rewrite gtr0_sg //; lra.
  have -> : tol / 2 + 1 - 1 = tol / 2 by lra.
  have -> : `|tol / 2| < tol_default F * 1.
    by rewrite ger0_norm -/tol; lra.
  have -> : (0 < tol / 2) by lra.
  rewrite /=; congr Done; apply/matrixP => i j; rewrite !mxE.
  rewrite hx hsg.
  have -> : 2 + tol - 2^-1 * (2 + tol) = tol / 2 + 1 by lra.
  have -> : Num.max (tol / 2 + 1) 0 = tol / 2 + 1 by apply/max_idPl; lra.
  by lra.
move/(_ (const_mx (1 + tol))).
have -> : (const_mx (1 + tol) != p).
  apply/eqP => /matrixP/(_ 0 0); rewrite !mxE => e.
  by lra.
move/(_ isT); rewrite !prox_objective11 !mxE.
have -> : `|1 + tol / 2| = 1 + tol / 2 by rewrite ger0_norm //; lra.
have -> : `|1 + tol| = 1 + tol by rewrite ger0_norm //; lra.
have -> : 1 + tol / 2 - (2 + tol) = - (1 + tol / 2) by lra.
have -> : 1 + tol - (2 + tol) = - 1 by lra.
rewrite !sqrrN expr1n => h.
have : 0 < tol ^+ 2 by rewrite exprn_gt0.
by move: h; rewrite !expr2; nra.
Qed.

End OneByOne.

(** ** The fixed-point step and the driver *)

Section Step.

Variable F : realFieldType.
Variable svd : forall m n : nat, 'M[F]_(m, n) -> svd_result F m n.
Variables m n : nat.
Variable D_global : 'M[F]_(m, n).
Implicit Types (Z D X : 'M[F]_(m, n)) (lambd : F) (r : int) (ord : norm_ord).

Local Notation T := (T svd D_global).
Local Notation proj_rank := (proj_rank svd).

Lemma T_done fuel Z lambd r ord X Z' :
  T fuel Z lambd r ord = Done (X, Z') ->
  X = proj_rank Z r /\
  exists2 P, prox_max_norm fuel (2%:R *: X - Z - D_global) lambd = Done P
           & Z' = Z + P + D_global - X.
Proof.
rewrite /T; case e: (prox_max_norm _ _ _) => [P| |] //= [eX eZ].
by split=> //; exists P; rewrite -eX.
Qed.

End Step.

Section StepTotal.

Variable F : archiRealFieldType.
Variable svd : forall m n : nat, 'M[F]_(m, n) -> svd_result F m n.
Variables m n : nat.
Variable D_global : 'M[F]_(m, n).
Implicit Types (Z D X : 'M[F]_(m, n)) (lambd : F) (r : int) (ord : norm_ord).

Local Notation T := (T svd D_global).
Local Notation proj_rank := (proj_rank svd).

Lemma T_total Z lambd r ord :
  0 < lambd ->
  exists fuel0 P, forall fuel, (fuel0 <= fuel)%N ->
    prox_max_norm fuel (2%:R *: proj_rank Z r - Z - D_global) lambd = Done P /\
    T fuel Z lambd r ord
      = Done (proj_rank Z r, Z + P + D_global - proj_rank Z r).
Proof.
move=> hl; set x := 2%:R *: proj_rank Z r - Z - D_global.
have [P hP] := prox_max_norm_total x hl.
exists (halvings_bound x lambd (tol_default F)), P => fuel hf.
by rewrite /T -/x (hP _ hf).
Qed.

End StepTotal.

Section DriverLemmas.

Variable F : realFieldType.
Variable svd : forall m n : nat, 'M[F]_(m, n) -> svd_result F m n.
Variable norm_fro : forall m n : nat, 'M[F]_(m, n) -> F.
Variable norm_nuc : forall m n : nat, 'M[F]_(m, n) -> F.
Variable matrix_rank : forall m n : nat, 'M[F]_(m, n) -> nat.
Variables m n : nat.
Variable D_global : 'M[F]_(m, n).
Implicit Types (Z D X : 'M[F]_(m, n)) (lambd : F) (r : int) (ord : norm_ord).
Implicit Types (st : driver_state F m n).

Local Notation T := (T svd D_global).
Local Notation proj_rank := (proj_rank svd).
Local Notation driver_body := (driver_body svd norm_fro norm_nuc matrix_rank D_global).
Local Notation driver_loop := (driver_loop svd norm_fro norm_nuc matrix_rank D_global).
Local Notation driver_run := (driver_run svd norm_fro norm_nuc matrix_rank D_global).
Local Notation compute_low_rank_est :=
  (compute_low_rank_est svd norm_fro norm_nuc matrix_rank D_global).
Local Notation iterate_Z := (iterate_Z svd D_global).
Local Notation iterate_X := (iterate_X svd D_global).
Local Notation diagnostics := (diagnostics norm_fro norm_nuc matrix_rank).
Local Notation st_entries := (@st_entries F m n).
Local Notation st_sized := (@st_sized F m n).

Lemma driver_body_done fuel D lambd r ord st k st' :
  driver_body fuel D lambd r ord st k = Done st' ->
  exists X Z',
    [/\ T fuel (st_Z st) lambd r ord = Done (X, Z'),
        st_Z st' = Z', st_X st' = Some X,
        forall N, (k < N)%N -> st_sized N st -> st_sized N st'
      & forall j, st_entries st' j
           = if j == k then diagnostics X D else st_entries st j].
Proof.
rewrite /driver_body; case eT: (T _ _ _ _ _) => [[X Z']| |] //=.
case e1: (np_max_abs _) => [v1| |] //=; case e2: (np_max_abs _) => [v2| |] //=.
case=> <-; exists X, Z'; split=> //=.
  move=> N hk [s1 s2 s3 s4]; split; rewrite /= size_set_nth ?s1 ?s2 ?s3 ?s4;
    exact/maxn_idPr.
move=> j; rewrite /st_entries /entries /= !nth_set_nth /=.
by rewrite (np_max_abs_done e1) (np_max_abs_done e2); case: eqP.
Qed.

Lemma iterate_Z_step fuel D lambd r ord k Z X Z' :
  iterate_Z fuel D lambd r ord k = Done Z ->
  T fuel Z lambd r ord = Done (X, Z') ->
  iterate_Z fuel D lambd r ord k.+1 = Done Z' /\
  iterate_X fuel D lambd r ord k = Done X.
Proof. by move=> eZ eT; rewrite /iterate_X /= eZ /= eT. Qed.

(** The loop invariant: after the passes [k0 .. k0 + cnt - 1] the
    splitting variable is iterate [k0 + cnt], the arrays keep their length,
    entry [k] of a pass [k] just made holds the diagnostics of its iterate,
    earlier entries are untouched, and [X] is the iterate of the last
    pass. *)
Lemma driver_loop_done fuel D lambd r ord N cnt k0 st st' :
  driver_loop fuel D lambd r ord (iota k0 cnt) st = Done st' ->
  iterate_Z fuel D lambd r ord k0 = Done (st_Z st) ->
  st_sized N st -> (k0 + cnt <= N)%N ->
  [/\ iterate_Z fuel D lambd r ord (k0 + cnt) = Done (st_Z st'),
      st_sized N st',
      forall k, (k0 <= k < k0 + cnt)%N ->
        exists2 X, iterate_X fuel D lambd r ord k = Done X
                 & st_entries st' k = diagnostics X D,
      forall k, (k < k0)%N -> st_entries st' k = st_entries st k
    & if cnt is 0 then st' = st
      else exists2 X, st_X st' = Some X
                    & iterate_X fuel D lambd r ord (k0 + cnt).-1 = Done X].
Proof.
elim: cnt k0 st => [|cnt IH] k0 st /=.
  case=> <- hZ hs _; rewrite addn0; split=> // k.
  by case: ltngtP.
case eb: (driver_body _ _ _ _ _ _ _) => [st1| |] //= hloop hZ hs hle.
have [X [Z' [eT eZ' eX hsz hent]]] := driver_body_done eb.
have [hZ1 hX0] := iterate_Z_step hZ eT.
have hk0 : (k0 < N)%N by apply: leq_trans hle; rewrite addnS ltnS leq_addr.
rewrite -eZ' in hZ1.
have [] := IH k0.+1 st1 hloop hZ1 (hsz _ hk0 hs).
  by rewrite addSnnS.
rewrite addSnnS => h1 h2 h3 h4 h5; split=> //.
- move=> k; rewrite leq_eqVlt => /andP[/orP[/eqP <-|hk] hk2].
    by exists X => //; rewrite h4 // hent eqxx.
  by apply: h3; rewrite hk.
- by move=> k hk; rewrite h4 ?hent ?ltn_eqF // ltnW.
case: cnt {IH hle h1 h3 h4} hloop h5 => [|cnt] /= hloop h5.
  by exists X; rewrite ?addn1 // h5.
by move: h5; rewrite !addnS.
Qed.

End DriverLemmas.

Section DriverTotal.

Variable F : archiRealFieldType.
Variable svd : forall m n : nat, 'M[F]_(m, n) -> svd_result F m n.
Variable norm_fro : forall m n : nat, 'M[F]_(m, n) -> F.
Variable norm_nuc : forall m n : nat, 'M[F]_(m, n) -> F.
Variable matrix_rank : forall m n : nat, 'M[F]_(m, n) -> nat.
Variables m n : nat.
Variable D_global : 'M[F]_(m.+1, n.+1).
Implicit Types (Z D X : 'M[F]_(m.+1, n.+1)) (lambd : F) (r : int) (ord : norm_ord).
Implicit Types (st : driver_state F m.+1 n.+1).

Local Notation T := (T svd D_global).
Local Notation driver_body := (driver_body svd norm_fro norm_nuc matrix_rank D_global).
Local Notation driver_loop := (driver_loop svd norm_fro norm_nuc matrix_rank D_global).
Local Notation driver_run := (driver_run svd norm_fro norm_nuc matrix_rank D_global).
Local Notation compute_low_rank_est :=
  (compute_low_rank_est svd norm_fro norm_nuc matrix_rank D_global).
Local Notation iterate_Z := (iterate_Z svd D_global).
Local Notation iterate_X := (iterate_X svd D_global).
Local Notation diagnostics := (diagnostics norm_fro norm_nuc matrix_rank).

Lemma driver_body_total D lambd r ord st k :
  0 < lambd ->
  exists fuel0 st', forall fuel, (fuel0 <= fuel)%N ->
    driver_body fuel D lambd r ord st k = Done st'.
Proof.
move=> hl; have [fuel0 [P hT]] := T_total svd D_global (st_Z st) r ord hl.
exists fuel0; eexists => fuel hf.
by rewrite /driver_body (hT _ hf).2 /=; reflexivity.
Qed.

Lemma driver_loop_total D lambd r ord ks st :
  0 < lambd ->
  exists fuel0 st', forall fuel, (fuel0 <= fuel)%N ->
    driver_loop fuel D lambd r ord ks st = Done st'.
Proof.
move=> hl; elim: ks st => [|k ks IH] st; first by exists 0%N, st.
have [f1 [st1 h1]] := driver_body_total D r ord st k hl.
have [f2 [st2 h2]] := IH st1.
exists (maxn f1 f2), st2 => fuel; rewrite geq_max => /andP[hf1 hf2].
by rewrite /= (h1 _ hf1) /= (h2 _ hf2).
Qed.

Lemma compute_low_rank_est_total D r lambd ord (iters : nat) :
  0 < lambd -> (0 < iters)%N ->
  exists fuel0 est, forall fuel, (fuel0 <= fuel)%N ->
    compute_low_rank_est fuel D r lambd ord iters = Done est.
Proof.
move=> hl hi; rewrite /compute_low_rank_est /driver_run.
set st0 := DriverState _ _ _ _ _ _ _.
have [f0 [st' h]] := driver_loop_total D r ord (iota 0 iters) st0 hl.
have hs : st_sized iters st0 by split; rewrite /= size_nseq.
have [_ _ _ _] :=
  driver_loop_done (N := iters) (h _ (leqnn f0)) (erefl _) hs (leqnn _).
case: iters hi {hs} st0 h => // k _ st0 h [X eX _].
exists f0; eexists => fuel hf.
by rewrite (h _ hf) /= eX; reflexivity.
Qed.

End DriverTotal.

(** ** The rank projection *)

Section Rank.

Variable F : realFieldType.
Variable svd : forall m n : nat, 'M[F]_(m, n) -> svd_result F m n.

Local Notation proj_rank := (proj_rank svd).

Lemma scale_colsE (m k : nat) (U : 'M[F]_(m, k)) (s : 'rV[F]_k) :
  scale_cols U s = U *m diag_mx s.
Proof. by rewrite mul_mx_diag. Qed.

Lemma zero_from_pid (k : nat) (s : 'rV[F]_k) (r : int) :
  diag_mx (zero_from s r)
  = diag_mx (zero_from s r) *m pid_mx (slice_start r k).
Proof.
rewrite mul_diag_mx; apply/matrixP => i j; rewrite !mxE.
case: (leqP (slice_start r k) i) => hi; first by rewrite mul0rn mul0r.
by rewrite andbT mulr_natr.
Qed.

Lemma rank_pid_le (k d : nat) : (\rank (pid_mx d : 'M[F]_k) <= d)%N.
Proof.
by rewrite -pid_mx_minv rank_pid_mx ?geq_minl ?geq_minr.
Qed.

(** The projection has rank at most the index where the slice starts. *)
Lemma rank_proj_rank (m n : nat) (A : 'M[F]_(m, n)) (r : int) :
  (\rank (proj_rank A r) <= slice_start r (minn m n))%N.
Proof.
rewrite /proj_rank; case: (svd A) => [[U s] V].
rewrite scale_colsE.
apply: leq_trans (mxrankM_maxl _ _) _.
apply: leq_trans (mxrankM_maxr _ _) _.
rewrite zero_from_pid.
by apply: leq_trans (mxrankM_maxr _ _) _; exact: rank_pid_le.
Qed.

(** C10. With the rank target [r = 0] the projection is the zero matrix of
    the shape of [A]: the slice [S[0:]] is the whole of [S]. *)
Theorem proj_rank_zero_target (m n : nat) (A : 'M[F]_(m, n)) :
  proj_rank A 0 = 0.
Proof.
rewrite /proj_rank; case: (svd A) => [[U s] V].
have -> : zero_from s 0 = 0 by apply/rowP => j; rewrite !mxE.
have -> : scale_cols U 0 = 0.
  by apply/matrixP => i j; rewrite !mxE mulr0.
by rewrite mul0mx.
Qed.

(** A diagonal matrix whose first [j + 1] entries are non-zero has rank
    above [j]. *)
Lemma rank_diag_gt (k : nat) (t : 'rV[F]_k) (j : 'I_k) :
  (forall i : 'I_k, (i <= j)%N -> t 0 i != 0) -> (j < \rank (diag_mx t))%N.
Proof.
move=> hnz.
pose M : 'M[F]_(j.+1, k) :=
  \matrix_(a, b) (if (a == b :> nat) then (t 0 b)^-1 else 0).
pose N : 'M[F]_(k, j.+1) := \matrix_(b, c) (b == c :> nat)%:R.
apply: (@mulmx1_min_rank _ _ _ _ _ M N).
apply/matrixP => a c; rewrite !mxE.
have ha : (a < k)%N by apply: leq_trans (ltn_ord a) (ltn_ord j).
have hside (b : 'I_k) :
    b != Ordinal ha -> (M *m diag_mx t) a b * N b c = 0.
  move=> hb; rewrite mul_mx_diag !mxE.
  have -> : (a == b :> nat) = false; last by rewrite !mul0r.
  apply/negbTE; apply: contraNneq hb => e.
  by apply/eqP/val_inj; rewrite /= e.
rewrite (bigD1 (Ordinal ha)) //= big1 // addr0 mul_mx_diag !mxE /= eqxx.
rewrite mulVf ?mul1r //.
by apply: hnz; rewrite /= -ltnS.
Qed.

Lemma svd_spec_rank (m n : nat) (B : 'M[F]_(m, n)) U t V :
  svd_spec B (U, t, V) -> (\rank (diag_mx t) <= \rank B)%N.
Proof.
case=> eB eU eV _ _.
have -> : diag_mx t = U^T *m B *m V^T.
  by rewrite -eB scale_colsE !mulmxA eU mul1mx -mulmxA eV mulmx1.
apply: leq_trans (mxrankM_maxl _ _) _.
exact: mxrankM_maxr.
Qed.

(** The singular values of a matrix of rank at most [d] vanish from index
    [d] on. *)
Lemma svd_spec_tail (m n : nat) (B : 'M[F]_(m, n)) U t V (d : nat) :
  svd_spec B (U, t, V) -> (\rank B <= d)%N ->
  forall j : 'I_(minn m n), (d <= j)%N -> t 0 j = 0.
Proof.
move=> hB hd j hj; apply/eqP/negPn/negP => tj.
have hr := svd_spec_rank hB; case: hB => _ _ _ t0 tS.
have : (j < \rank (diag_mx t))%N.
  apply: rank_diag_gt => i hi.
  by rewrite gt_eqF // (lt_le_trans _ (tS _ _ hi)) // lt_def tj t0.
move=> h; have := leq_trans (leq_trans h hr) (leq_trans hd hj).
by rewrite ltnn.
Qed.

(** C7. The rank projection is idempotent, provided the decomposition that
    NumPy returns for [proj_rank(A, r)] is a singular value decomposition
    of it: that matrix has rank at most the start of the slice, its
    singular values past the rank are zero, and zeroing them changes
    nothing. *)
Theorem proj_rank_idempotent (m n : nat) (A : 'M[F]_(m, n)) (r : int) :
  svd_spec (proj_rank A r) (svd (proj_rank A r)) ->
  proj_rank (proj_rank A r) r = proj_rank A r.
Proof.
set B := proj_rank A r; rewrite {1}/proj_rank.
case e: (svd B) => [[U t] V] hB.
have -> : zero_from t r = t.
  apply/rowP => j; rewrite mxE; case: leqP => // hj.
  by rewrite (svd_spec_tail hB (rank_proj_rank A r) hj).
by case: hB.
Qed.

End Rank.

(** ** The root finder on binary64 numbers *)

Module Float64Facts.
Import Float64.
Local Open Scope float_scope.


(** If the loop is stuck in the state reached after [k] passes without an
    exit, it is stuck from the start. *)
Lemma get_root_loop_passes (k fuel : nat) x lambd tol lo hi lo' hi' :
  passes k x lambd tol lo hi = Some (lo', hi') ->
  (forall fuel', get_root_loop fuel' x lambd tol lo' hi' = OutOfFuel) ->
  get_root_loop fuel x lambd tol lo hi = OutOfFuel.
Proof.
move=> hp hstuck; elim: k fuel lo hi hp => [|k IH] fuel lo hi /=.
  by case=> -> ->.
case: fuel => [|fuel] //=.
case: (ltb (abs _) _) => //.
by case: (ltb 0 _) => /IH.
Qed.

(** A state that a pass leaves unchanged, without meeting the exit test,
    is never left. *)
Lemma get_root_loop_fixed x lambd tol lo hi :
  passes 1 x lambd tol lo hi = Some (lo, hi) ->
  forall fuel, get_root_loop fuel x lambd tol lo hi = OutOfFuel.
Proof.
move=> h1 fuel; elim: fuel => [|fuel IH] //=.
move: h1 => /=; case: (ltb (abs _) _) => //.
by case: (ltb 0 _) => -[->].
Qed.

End Float64Facts.

(** ** What a call of the driver returns *)

Section DriverResult.

Variable F : realFieldType.
Variable svd : forall m n : nat, 'M[F]_(m, n) -> svd_result F m n.
Variable norm_fro : forall m n : nat, 'M[F]_(m, n) -> F.
Variable norm_nuc : forall m n : nat, 'M[F]_(m, n) -> F.
Variable matrix_rank : forall m n : nat, 'M[F]_(m, n) -> nat.
Variables m n : nat.
Variable D_global : 'M[F]_(m, n).
Implicit Types (Z D X : 'M[F]_(m, n)) (lambd : F) (r : int) (ord : norm_ord).

Local Notation compute_low_rank_est :=
  (compute_low_rank_est svd norm_fro norm_nuc matrix_rank D_global).
Local Notation iterate_Z := (iterate_Z svd D_global).
Local Notation iterate_X := (iterate_X svd D_global).
Local Notation diagnostics := (diagnostics norm_fro norm_nuc matrix_rank).

Lemma np_div0 (a : F) : ~~ is_finite (np_div a 0).
Proof. by rewrite /np_div eqxx; case: (a == 0) => //; case: (0 < a). Qed.

Lemma iterate_X_proj_rank fuel D lambd r ord k X :
  iterate_X fuel D lambd r ord k = Done X ->
  exists Z, X = proj_rank svd Z r.
Proof.
rewrite /iterate_X; case: (iterate_Z _ _ _ _ _ _) => [Z| |] //=.
case eT: (T _ _ _ _ _ _ _) => [[X' Z']| |] //= [<-].
by exists Z; have [] := T_done eT.
Qed.

(** What a completed call of the driver has done: [iters] passes, the
    iterate of the last one returned, entry [k] of each array written by
    pass [k]. *)
Lemma compute_low_rank_est_done fuel D r lambd ord (iters : nat) est :
  compute_low_rank_est fuel D r lambd ord iters = Done est ->
  [/\ (0 < iters)%N,
      [/\ size (est_err_max est) = iters, size (est_err_fro est) = iters,
          size (est_rank est) = iters & size (est_norm est) = iters],
      iterate_X fuel D lambd r ord iters.-1 = Done (est_X est)
    & forall k, (k < iters)%N ->
        exists2 X, iterate_X fuel D lambd r ord k = Done X
                 & entries (est_err_max est) (est_err_fro est)
                     (est_rank est) (est_norm est) k = diagnostics X D].
Proof.
case: iters => [|k] //; rewrite /compute_low_rank_est /driver_run.
set st0 := DriverState _ _ _ _ _ _ _.
case e: (driver_loop _ _ _ _ _ _ _ _ _ _ _ _) => [st| |] //=.
case eX: (st_X st) => [X|] //= [<-] /=.
have hs : st_sized k.+1 st0 by split; rewrite /= size_nseq.
have [_ [s1 s2 s3 s4] hent _ [X' eX' hX']] :=
  driver_loop_done (N := k.+1) e (erefl _) hs (leqnn _).
by move: eX' hX'; rewrite eX => -[<-] hX; split.
Qed.

End DriverResult.

(** ** The decomposition read off the diagonal *)

Section SvdDiag.

Variable F : realFieldType.

Lemma diag_mx_pid (k d : nat) :
  diag_mx (\row_(j < k) (j < d)%:R : 'rV[F]_k) = pid_mx d.
Proof.
apply/matrixP => i j; rewrite !mxE -val_eqE /=.
by case: (_ == _); rewrite ?mulr0n ?mulr1n.
Qed.

Lemma pid_mx_sandwich (m n e : nat) :
  (pid_mx (minn m n) : 'M[F]_(m, minn m n)) *m (pid_mx e : 'M[F]_(minn m n))
    *m (pid_mx (minn m n) : 'M[F]_(minn m n, n)) = pid_mx e.
Proof.
rewrite !mul_pid_mx -[RHS]pid_mx_minv -[RHS]pid_mx_minh; congr (pid_mx _).
apply/eqP; rewrite eqn_leq !leq_min !geq_min !leqnn /= ?orbT /=.
by case: (leqP m n) => h1; case: (leqP m e) => h2; case: (leqP n e) => h3.
Qed.

Lemma svd_diag_pid (m n d : nat) :
  svd_diag (pid_mx d : 'M[F]_(m, n))
  = (pid_mx (minn m n), \row_(j < minn m n) (j < d)%:R, pid_mx (minn m n)).
Proof.
rewrite /svd_diag; congr (_, _, _); apply/rowP => j.
by rewrite !mxE /= eqxx.
Qed.

Lemma svd_diag_spec_pid (m n d : nat) :
  svd_spec (pid_mx d : 'M[F]_(m, n)) (svd_diag (pid_mx d)).
Proof.
rewrite svd_diag_pid; split.
- by rewrite scale_colsE diag_mx_pid pid_mx_sandwich.
- by rewrite tr_pid_mx mul_pid_mx minnn minnA minnn pid_mx_1.
- rewrite tr_pid_mx mul_pid_mx minnn.
  have -> : minn n (minn m n) = minn m n by rewrite minnC -minnA minnn.
  by rewrite pid_mx_1.
- by move=> j; rewrite mxE ler0n.
by move=> i j hij; rewrite !mxE ler_nat; case: (ltnP j d) => // /(leq_ltn_trans hij) ->.
Qed.

Lemma proj_rank_pid (m n d p : nat) :
  proj_rank (@svd_diag F) (pid_mx d : 'M[F]_(m, n)) p = pid_mx (minn d p).
Proof.
rewrite /proj_rank svd_diag_pid scale_colsE.
have -> : zero_from (\row_(j < minn m n) (j < d)%:R : 'rV[F]__) p
          = \row_(j < minn m n) (j < minn d p)%:R.
  apply/rowP => j; rewrite !mxE /= leq_min.
  by case: (leqP p j) => _; rewrite ?andbF ?andbT.
by rewrite diag_mx_pid pid_mx_sandwich.
Qed.

End SvdDiag.

Section ConstantArrays.

Variable F : realFieldType.

Lemma l1_norm_const (m n : nat) (a : F) :
  l1_norm (const_mx a : 'M[F]_(m, n)) = (m * n)%:R * `|a|.
Proof.
have hrow (i : 'I_m) : \sum_(j < n) `|(const_mx a : 'M[F]_(m, n)) i j| = `|a| *+ n.
  rewrite -[n in RHS]card_ord -sumr_const.
  by apply: eq_bigr => j _; rewrite mxE.
rewrite /l1_norm (eq_bigr _ (fun i _ => hrow i)).
by rewrite sumr_const card_ord -mulrnA mulr_natl mulnC.
Qed.

Lemma sum_squares0 (m n : nat) : sum_squares (0 : 'M[F]_(m, n)) = 0.
Proof.
rewrite /sum_squares big1 // => i _; rewrite big1 // => j _.
by rewrite mxE expr0n.
Qed.

End ConstantArrays.

(** ** The claims *)

Section StepClaims.

Variable F : archiRealFieldType.
Variable svd : forall m n : nat, 'M[F]_(m, n) -> svd_result F m n.
Variables m n : nat.

(** C1. The fixed-point step returns the pair [(X_new, Z_new)] with
    [X_new = proj_rank(Z, r)] and
    [Z_new = Z + prox_max_norm(2 * X_new - Z - D, lambd) + D - X_new],
    where [D] is the module-level array that the body of [T] reads.
    Whatever [T] returns has this form, and for a positive step size it
    does return, with any fuel from some bound on. *)
Theorem T_fixed_point_step (D Z : 'M[F]_(m, n)) (lambd : F) (r : int)
    (ord : norm_ord) :
  let X_new := proj_rank svd Z r in
  (forall fuel X Z', T svd D fuel Z lambd r ord = Done (X, Z') ->
     X = X_new /\
     exists2 P, prox_max_norm fuel (2%:R *: X_new - Z - D) lambd = Done P
              & Z' = Z + P + D - X_new)
  /\ (0 < lambd ->
      exists fuel0 P, forall fuel, (fuel0 <= fuel)%N ->
        prox_max_norm fuel (2%:R *: X_new - Z - D) lambd = Done P /\
        T svd D fuel Z lambd r ord = Done (X_new, Z + P + D - X_new)).
Proof.
move=> X_new; split; last exact: T_total.
move=> fuel X Z' /T_done[eX [P eP eZ]]; split=> //.
by exists P; rewrite /X_new -eX.
Qed.

(** C2. Under the precondition [sum |x_i| > lambd > 0] (and a positive
    tolerance) the root finder returns a threshold [alpha], the same for
    any fuel from [halvings_bound] on and the only value it ever returns,
    with [|sum max(|x_i| - alpha, 0) - lambd| < tol * lambd] and
    [0 <= alpha <= max |x_i|]. *)
Theorem get_root_threshold (x : 'M[F]_(m, n)) (lambd tol : F) :
  0 < lambd -> 0 < tol -> lambd < l1_norm x ->
  exists alpha,
    [/\ forall fuel, (halvings_bound x lambd tol <= fuel)%N ->
          get_root fuel x lambd tol = Done alpha,
        forall fuel alpha', get_root fuel x lambd tol = Done alpha' ->
          alpha' = alpha,
        `|residual x lambd alpha| < tol * lambd
      & 0 <= alpha <= max_abs x].
Proof.
move=> hl ht hx; have [alpha [e1 e2 e3]] := get_root_converges hl ht hx.
have hfuel fuel : (halvings_bound x lambd tol <= fuel)%N ->
    get_root fuel x lambd tol = Done alpha.
  by move=> hf; rewrite -(subnKC hf); exact: get_root_mono.
exists alpha; split=> // fuel alpha' e.
have := get_root_mono (halvings_bound x lambd tol) e.
by rewrite hfuel ?leq_addl // => -[].
Qed.

(** C3, as amended. For a positive scale [prox_max_norm] returns, with any
    fuel from [halvings_bound] on. When [sum |x_i| <= lambd] the result is
    the zero matrix, which is the unique minimizer of
    [lambd * |u|_oo + 1/2 * |u - x|^2]. Otherwise it is
    [x - sign(x) * max(|x| - alpha, 0)] for a threshold [alpha] in
    [[0, max |x_i|]] such that the L1 norm of the subtracted part is within
    [tol * lambd] of [lambd]; it is the unique minimizer when [alpha] is an
    exact root of the residual. *)
Theorem prox_max_norm_moreau (x : 'M[F]_(m, n)) (lambd : F) :
  0 < lambd ->
  exists p,
    [/\ forall fuel, (halvings_bound x lambd (tol_default F) <= fuel)%N ->
          prox_max_norm fuel x lambd = Done p,
        l1_norm x <= lambd -> p = 0 /\ is_prox x lambd p
      & lambd < l1_norm x ->
        exists alpha,
          [/\ 0 <= alpha <= max_abs x,
              p = x - soft_threshold x alpha,
              `|l1_norm (soft_threshold x alpha) - lambd|
                < tol_default F * lambd
            & residual x lambd alpha = 0 -> is_prox x lambd p]].
Proof.
move=> hl; case: (leP (l1_norm x) lambd) => hx.
  exists 0; split=> //.
    by move=> fuel _; exact: prox_max_norm_small.
  by move=> _; split=> //; exact: prox_zero_exact.
have [alpha [e1 e2 /andP[a0 a1]]] := prox_max_norm_large hl hx.
exists (x - soft_threshold x alpha); split=> //.
  by move=> fuel hf; rewrite -(subnKC hf); exact: prox_max_norm_mono.
move=> _; exists alpha; split=> //; first by rewrite a0 a1.
  by rewrite (l1_norm_soft_threshold x lambd) // addrK.
by move=> hr; exact: prox_root_exact.
Qed.

(** C8. When [sum |x_i| <= lambd], [prox_max_norm] returns the zero matrix
    of the shape of [x], whatever the fuel. It does so with no fuel at all,
    with which a call of the root finder gives no result: the root finder
    is not invoked. *)
Theorem prox_max_norm_within_budget (x : 'M[F]_(m, n)) (lambd : F) :
  l1_norm x <= lambd ->
  (forall fuel, prox_max_norm fuel x lambd = Done (const_mx 0))
  /\ (forall alpha, get_root 0 x lambd (tol_default F) <> Done alpha).
Proof.
move=> hx; split=> [fuel|alpha]; first exact: prox_max_norm_small.
by rewrite /get_root; case: (np_max_abs x).
Qed.

End StepClaims.

Section RankClaims.

Variable F : realFieldType.
Variable svd : forall m n : nat, 'M[F]_(m, n) -> svd_result F m n.
Variable norm_fro : forall m n : nat, 'M[F]_(m, n) -> F.
Variable norm_nuc : forall m n : nat, 'M[F]_(m, n) -> F.
Variable matrix_rank : forall m n : nat, 'M[F]_(m, n) -> nat.
Variables m n : nat.

(** C6. For a rank target [r >= 0], [proj_rank(A, r)] has rank at most
    [r]; so has the iterate [X] of every fixed-point step, and the [X] that
    the driver returns. *)
Theorem proj_rank_rank_le (r : int) :
  0 <= r ->
  [/\ forall A : 'M[F]_(m, n), (\rank (proj_rank svd A r))%:Z <= r,
      forall (D Z : 'M[F]_(m, n)) fuel lambd ord X Z',
        T svd D fuel Z lambd r ord = Done (X, Z') -> (\rank X)%:Z <= r
    & forall (D_global D : 'M[F]_(m, n)) fuel lambd ord (iters : int) est,
        compute_low_rank_est svd norm_fro norm_nuc matrix_rank D_global
          fuel D r lambd ord iters = Done est ->
        (\rank (est_X est))%:Z <= r].
Proof.
case: r => // p _.
have hA (A : 'M[F]_(m, n)) : (\rank (proj_rank svd A p))%:Z <= p :> int.
  by rewrite lez_nat; exact: (rank_proj_rank svd A p).
split=> // [D Z fuel lambd ord X Z' /T_done[-> _] //|].
move=> D_global D fuel lambd ord [iters|iters] est //.
case/compute_low_rank_est_done => _ _ /iterate_X_proj_rank[Z ->] _.
exact: hA.
Qed.

End RankClaims.

Section DriverClaims.

Variable F : archiRealFieldType.
Variable svd : forall m n : nat, 'M[F]_(m, n) -> svd_result F m n.
Variable norm_fro : forall m n : nat, 'M[F]_(m, n) -> F.
Variable norm_nuc : forall m n : nat, 'M[F]_(m, n) -> F.
Variable matrix_rank : forall m n : nat, 'M[F]_(m, n) -> nat.
Variables m n : nat.
Variable D_global : 'M[F]_(m.+1, n.+1).

Local Notation compute_low_rank_est :=
  (compute_low_rank_est svd norm_fro norm_nuc matrix_rank D_global).
Local Notation iterate_X := (iterate_X svd D_global).
Local Notation diagnostics := (diagnostics norm_fro norm_nuc matrix_rank).

(** C5. With an iteration budget [iters >= 1] a call of the driver that
    returns has made exactly [iters] fixed-point steps: it returns the
    iterate of step [iters - 1], each of the four arrays has length
    [iters], and entry [k] of each is computed from the iterate [X] of
    step [k] and from [D]. For a positive step size the call does return,
    with any fuel from some bound on. The target has at least one entry:
    on an empty one [np.max] raises. *)
Theorem compute_low_rank_est_runs_iters (D : 'M[F]_(m.+1, n.+1)) (r : int)
    (lambd : F) (ord : norm_ord) (iters : nat) :
  (0 < iters)%N ->
  (forall fuel est,
     compute_low_rank_est fuel D r lambd ord iters = Done est ->
     [/\ [/\ size (est_err_max est) = iters, size (est_err_fro est) = iters,
             size (est_rank est) = iters & size (est_norm est) = iters],
         iterate_X fuel D lambd r ord iters.-1 = Done (est_X est)
       & forall k, (k < iters)%N ->
           exists2 X, iterate_X fuel D lambd r ord k = Done X
                    & entries (est_err_max est) (est_err_fro est)
                        (est_rank est) (est_norm est) k = diagnostics X D])
  /\ (0 < lambd ->
      exists fuel0 est, forall fuel, (fuel0 <= fuel)%N ->
        compute_low_rank_est fuel D r lambd ord iters = Done est).
Proof.
move=> hi; split; last by move=> hl; exact: compute_low_rank_est_total.
by move=> fuel est /compute_low_rank_est_done[].
Qed.

(** C9. With the all-zero target (of at least one entry) the driver does
    not fail before iterating: for a positive step size it returns. The
    two error arrays of a call that returns hold no finite number: every
    entry is the quotient of a division by [max |D| = 0], respectively by
    the Frobenius norm of [D], taken to be [0] at the zero matrix. *)
Theorem zero_target_errors_not_finite (r : int) (lambd : F) (ord : norm_ord)
    (iters : nat) :
  norm_fro (0 : 'M[F]_(m.+1, n.+1)) = 0 -> (0 < iters)%N ->
  (forall fuel est,
     compute_low_rank_est fuel 0 r lambd ord iters = Done est ->
     forall k, (k < iters)%N ->
       ~~ is_finite (nth (Finite 0) (est_err_max est) k) /\
       ~~ is_finite (nth (Finite 0) (est_err_fro est) k))
  /\ (0 < lambd ->
      exists fuel0 est, forall fuel, (fuel0 <= fuel)%N ->
        compute_low_rank_est fuel 0 r lambd ord iters = Done est).
Proof.
move=> h0 hi; split; last by move=> hl; exact: compute_low_rank_est_total.
move=> fuel est /compute_low_rank_est_done[_ _ _ hent] k /hent[X _].
rewrite /entries /diagnostics max_abs0 h0 => -[-> -> _ _].
by split; exact: np_div0.
Qed.

End DriverClaims.

(** C4. On binary64 numbers the loop of [get_root] does not always exit.
    For [x = [10000.0]] and [lambd = 1e-3] the precondition
    [sum |x_i| > lambd] holds; after 52 passes [t_lo] and [t_hi] are
    adjacent numbers, their midpoint rounds to [t_lo], the residual there
    stays above [tol * lambd], and the state no longer changes: no amount
    of fuel lets the call return. *)
Theorem float64_get_root_never_returns :
  PrimFloat.ltb 1e-3
    (Float64.np_sum [seq PrimFloat.abs a | a <- [:: 10000%float]]) = true
  /\ forall fuel,
       Float64.get_root fuel [:: 10000%float] 1e-3%float Float64.tol_default
       = OutOfFuel.
Proof.
split=> [|fuel]; first by vm_compute.
rewrite /Float64.get_root.
have -> : Float64.np_max [seq PrimFloat.abs a | a <- [:: 10000%float]]
          = Done 10000%float by [].
rewrite /bind.
apply: (@Float64Facts.get_root_loop_passes 52 _ _ _ _ _ _
          0x1.387ffdf3b645ap+13%float 0x1.387ffdf3b645bp+13%float).
  by vm_compute.
by apply: Float64Facts.get_root_loop_fixed; vm_compute.
Qed.

(** ** The claims at concrete inputs *)

Section Examples.

Local Notation svd := (@svd_diag rat).
Local Notation ex_driver :=
  (compute_low_rank_est svd (@sum_squares rat) (@nuc_diag rat)
     (@exact_rank rat)).
Local Notation iterate_X := (iterate_X svd ex_D).
Local Notation diagnostics :=
  (diagnostics (@sum_squares rat) (@nuc_diag rat) (@exact_rank rat)).

Lemma l1_norm_ex_x : l1_norm ex_x = 6%:R.
Proof. by rewrite /ex_x l1_norm_const normr1 mulr1. Qed.

(** The array [[2.0]] on binary64 numbers, and the array [[3.0]]: after 34
    passes the exit test holds at a threshold near the root 2. *)
Example float64_get_root_first_midpoint :
  Float64.get_root 1 [:: 2%float] 1%float Float64.tol_default
  = Done 1%float.
Proof. by vm_compute. Qed.

Example float64_get_root_near_root :
  Float64.get_root 34 [:: 3%float] 1%float Float64.tol_default
  = Done 2.0000000000582077%float
  /\ Float64.get_root 33 [:: 3%float] 1%float Float64.tol_default
     = OutOfFuel.
Proof. by split; vm_compute. Qed.

Example float64_prox_max_norm_within_budget :
  Float64.prox_max_norm 0 [:: 0.5%float; (-0.25)%float] 1%float
  = Done [:: 0%float; 0%float].
Proof. by vm_compute. Qed.

Example float64_prox_max_norm_clips :
  Float64.prox_max_norm 34 [:: 3%float; (-0.5)%float] 1%float
  = Done [:: 2.0000000000582077%float; (-0.5)%float].
Proof. by vm_compute. Qed.

(** On binary64 numbers too the result is short of the minimizer
    [x - lambd] on the array [[2.0000000001]], and with a zero scale the
    call on [[1.0]] returns for no fuel: the bounds settle on 1 and the
    number below it. *)
Example float64_prox_max_norm_inexact :
  Float64.prox_max_norm 1 [:: 2.0000000001%float] 1%float
  = Done [:: 1.00000000005%float]
  /\ (2.0000000001 - 1)%float = 1.0000000001%float.
Proof. by split; vm_compute. Qed.

Example float64_prox_max_norm_zero_scale (fuel : nat) :
  Float64.prox_max_norm fuel [:: 1%float] 0%float = OutOfFuel.
Proof.
rewrite /Float64.prox_max_norm.
have -> : PrimFloat.leb (Float64.np_sum [seq PrimFloat.abs a | a <- [:: 1%float]])
            0%float = false by vm_compute.
rewrite /Float64.get_root.
have -> : Float64.np_max [seq PrimFloat.abs a | a <- [:: 1%float]]
          = Done 1%float by [].
rewrite /bind.
rewrite (@Float64Facts.get_root_loop_passes 60 _ _ _ _ _ _
           0x1.fffffffffffffp-1%float 1%float) //.
by apply: Float64Facts.get_root_loop_fixed; vm_compute.
Qed.

(** C3, the claim as stated fails. With [lambd = 0] and [x = [[1]]] the
    call returns for no fuel. With [lambd = 1] and [x = [[2 + tol]]] it
    returns [[1 + tol / 2]], which is not the minimizer [[1 + tol]]. *)
Lemma prox_max_norm_not_exact :
  (~ exists fuel p,
       prox_max_norm fuel (const_mx 1 : 'M[rat]_(1, 1)) 0 = Done p)
  /\ (exists p : 'M[rat]_(1, 1),
        prox_max_norm 1 (const_mx (2 + tol_default rat)) 1 = Done p
        /\ ~ is_prox (const_mx (2 + tol_default rat)) 1 p).
Proof.
split.
  case=> fuel [p]; apply: prox_max_norm_lambd0.
  by rewrite l1_norm11 normr1.
exists (const_mx (1 + tol_default rat / 2)).
exact: prox_max_norm_inexact.
Qed.

Lemma T_fixed_point_step_witness :
  exists fuel0 P, forall fuel, (fuel0 <= fuel)%N ->
    prox_max_norm fuel (2%:R *: proj_rank svd ex_D 1 - ex_D - ex_D) 1 = Done P
    /\ T svd ex_D fuel ex_D 1 1 OrdMax
       = Done (proj_rank svd ex_D 1, ex_D + P + ex_D - proj_rank svd ex_D 1).
Proof.
apply: (proj2 (T_fixed_point_step svd ex_D ex_D 1 1 OrdMax)); exact: ltr01.
Defined.

Lemma get_root_threshold_witness :
  exists alpha : rat,
    [/\ forall fuel, (halvings_bound ex_x 1 (tol_default rat) <= fuel)%N ->
          get_root fuel ex_x 1 (tol_default rat) = Done alpha,
        forall fuel alpha',
          get_root fuel ex_x 1 (tol_default rat) = Done alpha' ->
          alpha' = alpha,
        `|residual ex_x 1 alpha| < tol_default rat * 1
      & 0 <= alpha <= max_abs ex_x].
Proof.
apply: get_root_threshold.
- exact: ltr01.
- exact: tol_default_gt0.
- by rewrite l1_norm_ex_x ltr1n.
Defined.

Lemma prox_max_norm_moreau_witness :
  exists p,
    [/\ forall fuel, (halvings_bound ex_x 1 (tol_default rat) <= fuel)%N ->
          prox_max_norm fuel ex_x 1 = Done p,
        l1_norm ex_x <= 1 -> p = 0 /\ is_prox ex_x 1 p
      & 1 < l1_norm ex_x ->
        exists alpha,
          [/\ 0 <= alpha <= max_abs ex_x,
              p = ex_x - soft_threshold ex_x alpha,
              `|l1_norm (soft_threshold ex_x alpha) - 1|
                < tol_default rat * 1
            & residual ex_x 1 alpha = 0 -> is_prox ex_x 1 p]].
Proof. apply: prox_max_norm_moreau; exact: ltr01. Defined.

Lemma prox_max_norm_within_budget_witness :
  (forall fuel, prox_max_norm fuel ex_x 6%:R = Done (const_mx 0))
  /\ (forall alpha, get_root 0 ex_x 6%:R (tol_default rat) <> Done alpha).
Proof.
apply: prox_max_norm_within_budget; rewrite l1_norm_ex_x; exact: lexx.
Defined.

Lemma compute_low_rank_est_runs_iters_witness :
  (forall fuel est,
     ex_driver ex_D fuel ex_D 1 (lambd_default rat) OrdFro 3%N
       = Done est ->
     [/\ [/\ size (est_err_max est) = 3%N, size (est_err_fro est) = 3%N,
             size (est_rank est) = 3%N & size (est_norm est) = 3%N],
         iterate_X fuel ex_D (lambd_default rat) 1 OrdFro 2 = Done (est_X est)
       & forall k, (k < 3)%N ->
           exists2 X, iterate_X fuel ex_D (lambd_default rat) 1 OrdFro k
                      = Done X
                    & entries (est_err_max est) (est_err_fro est)
                        (est_rank est) (est_norm est) k
                      = diagnostics X ex_D])
  /\ (0 < lambd_default rat ->
      exists fuel0 est, forall fuel, (fuel0 <= fuel)%N ->
        ex_driver ex_D fuel ex_D 1 (lambd_default rat) OrdFro 3%N
        = Done est).
Proof.
apply: (@compute_low_rank_est_runs_iters rat svd (@sum_squares rat)
          (@nuc_diag rat) (@exact_rank rat) 1 2 ex_D ex_D 1
          (lambd_default rat) OrdFro 3).
exact: isT.
Defined.

Lemma proj_rank_rank_le_witness :
  [/\ forall A : 'M[rat]_(2, 3), (\rank (proj_rank svd A 1))%:Z <= 1 :> int,
      forall (D Z : 'M[rat]_(2, 3)) fuel lambd ord X Z',
        T svd D fuel Z lambd 1 ord = Done (X, Z') -> (\rank X)%:Z <= 1 :> int
    & forall (D_global D : 'M[rat]_(2, 3)) fuel lambd ord (iters : int) est,
        ex_driver D_global fuel D 1 lambd ord iters = Done est ->
        (\rank (est_X est))%:Z <= 1 :> int].
Proof.
apply: (@proj_rank_rank_le rat svd (@sum_squares rat) (@nuc_diag rat)
          (@exact_rank rat) 2 3 1).
exact: ler01.
Defined.

Lemma proj_rank_idempotent_witness :
  proj_rank svd (proj_rank svd ex_D 1) 1 = proj_rank svd ex_D 1.
Proof.
apply: proj_rank_idempotent.
have -> : proj_rank svd ex_D 1 = pid_mx (minn 2 1).
  exact: (proj_rank_pid rat 2 3 2 1).
exact: svd_diag_spec_pid.
Defined.

Lemma zero_target_errors_not_finite_witness :
  (forall fuel est,
     ex_driver ex_D fuel 0 1 (lambd_default rat) OrdFro 3%N = Done est ->
     forall k, (k < 3)%N ->
       ~~ is_finite (nth (Finite 0) (est_err_max est) k) /\
       ~~ is_finite (nth (Finite 0) (est_err_fro est) k))
  /\ (0 < lambd_default rat ->
      exists fuel0 est, forall fuel, (fuel0 <= fuel)%N ->
        ex_driver ex_D fuel 0 1 (lambd_default rat) OrdFro 3%N
        = Done est).
Proof.
apply: (@zero_target_errors_not_finite rat svd (@sum_squares rat)
          (@nuc_diag rat) (@exact_rank rat) 1 2 ex_D 1 (lambd_default rat)
          OrdFro 3).
- exact: sum_squares0.
- exact: isT.
Defined.

End Examples.

(** ** Further properties of the root finder *)

Section RootFinderReturns.

Variable F : realFieldType.
Variables m n : nat.
Implicit Types (x y : 'M[F]_(m, n)) (lambd tol t : F).

(** What the loop returns lies between the bounds it started from and has
    passed the exit test. *)
Lemma get_root_loop_range (fuel : nat) x lambd tol lo hi alpha :
  lo <= hi -> get_root_loop fuel x lambd tol lo hi = Done alpha ->
  lo <= alpha <= hi /\ `|residual x lambd alpha| < tol * lambd.
Proof.
elim: fuel lo hi => [|fuel IH] lo hi //= hle.
set t := 2^-1 * (lo + hi); set res := residual x lambd t.
have /andP[h1 h2] : lo <= t <= hi by rewrite /t; apply/andP; split; lra.
case: (ltP 0 res) => _.
  case: ifP => [hc [<-]|_ /(IH _ _ h2)[/andP[a1 a2] a3]]; first by rewrite h1 h2.
  by split=> //; rewrite a2 (le_trans h1).
case: ifP => [hc [<-]|_ /(IH _ _ h1)[/andP[a1 a2] a3]]; first by rewrite h1 h2.
by split=> //; rewrite a1 (le_trans a2).
Qed.

Lemma get_root_done (fuel : nat) x lambd tol alpha :
  get_root fuel x lambd tol = Done alpha ->
  [/\ 0 <= alpha <= max_abs x, `|residual x lambd alpha| < tol * lambd
    & ~~ ((m == 0)%N || (n == 0)%N)].
Proof.
rewrite /get_root /np_max_abs; case: ifP => //= _.
by case/(get_root_loop_range (max_abs_ge0 x)).
Qed.

(** With a non-negative threshold no entry of the sum exceeds the entry of
    the input: the residual is at most the one at 0. *)
Lemma residual_le x lambd t :
  0 <= t -> residual x lambd t <= l1_norm x - lambd.
Proof.
move=> ht; rewrite /residual /l1_norm lerD2r.
apply: ler_sum => i _; apply: ler_sum => j _.
by rewrite ge_max normr_ge0 andbT lerBlDr lerDl.
Qed.

(** The residual and the upper bound read the input through [np.abs]. *)
Lemma residual_abs x y lambd t :
  (forall i j, `|x i j| = `|y i j|) -> residual x lambd t = residual y lambd t.
Proof.
move=> h; rewrite /residual; congr (_ - _).
by apply: eq_bigr => i _; apply: eq_bigr => j _; rewrite h.
Qed.

Lemma max_abs_abs x y :
  (forall i j, `|x i j| = `|y i j|) -> max_abs x = max_abs y.
Proof.
move=> h; rewrite /max_abs.
by apply: eq_bigr => i _; apply: eq_bigr => j _; rewrite h.
Qed.

Lemma get_root_loop_abs (fuel : nat) x y lambd tol lo hi :
  (forall i j, `|x i j| = `|y i j|) ->
  get_root_loop fuel x lambd tol lo hi = get_root_loop fuel y lambd tol lo hi.
Proof.
move=> h; elim: fuel lo hi => [|fuel IH] lo hi //=.
by rewrite (residual_abs _ _ h); case: ifP => _; rewrite IH.
Qed.

(** Below the budget the bisection only ever lowers [t_hi]; the residual
    tends to the one at 0, which passes the exit test when the L1 norm is
    within the tolerance of the budget. *)
Lemma get_root_loop_below (fuel : nat) x lambd tol hi :
  l1_norm x <= lambd -> lambd < l1_norm x + tol * lambd -> 0 <= hi ->
  (m * n)%:R * hi < (l1_norm x + tol * lambd - lambd) * 2 ^+ fuel.+1 ->
  exists alpha, get_root_loop fuel.+1 x lambd tol 0 hi = Done alpha.
Proof.
move=> hx hband.
have key t : 0 <= t ->
    residual x lambd t <= 0 /\
    `|residual x lambd t| <= lambd - l1_norm x + (m * n)%:R * t.
  move=> ht; have hres := residual_le x lambd ht.
  have := residual_lip x lambd t 0; rewrite residual0 subr0 (ger0_norm ht).
  rewrite ler_norml => /andP[hl _].
  by split; [|rewrite ler0_norm]; lra.
elim: fuel hi => [|fuel IH] hi hhi hw.
  have ht : 0 <= 2^-1 * (0 + hi) by lra.
  have [h1 h2] := key _ ht.
  have hc : `|residual x lambd (2^-1 * (0 + hi))| < tol * lambd.
    apply: le_lt_trans h2 _; move: hw; rewrite expr1.
    by move: (_%:R) => N; nra.
  by exists (2^-1 * (0 + hi)); rewrite /= hc; case: ifP.
rewrite [get_root_loop _ _ _ _ _ _]/=.
have ht : 0 <= 2^-1 * (0 + hi) by lra.
have [h1 h2] := key _ ht.
have -> : (0 < residual x lambd (2^-1 * (0 + hi))) = false.
  by apply/negbTE; rewrite -leNgt.
case: ifP => _; first by exists (2^-1 * (0 + hi)).
apply: IH => //.
move: hw; rewrite [in X in X -> _]exprS.
by move: (_%:R) (2 ^+ _) => N W; nra.
Qed.

End RootFinderReturns.

Section RootFinderExtras.

Variable F : archiRealFieldType.
Variables m n : nat.

(** X1. Whatever [get_root] returns, for any budget and tolerance, lies in
    [[0, max |x_i|]] and has passed the exit test; a call that returns was
    given an array with an entry. *)
Theorem get_root_returns_in_range (fuel : nat) (x : 'M[F]_(m, n))
    (lambd tol alpha : F) :
  get_root fuel x lambd tol = Done alpha ->
  [/\ 0 <= alpha <= max_abs x,
      `|residual x lambd alpha| < tol * lambd
    & (0 < m)%N && (0 < n)%N].
Proof.
case/get_root_done => h1 h2 h3; split=> //.
by move: h3; rewrite negb_or !lt0n.
Qed.

(** X2. [get_root] never returns when [tol * lambd <= 0]: a zero or
    negative budget with a positive tolerance, or a zero tolerance. *)
Theorem get_root_needs_positive_tolerance (x : 'M[F]_(m, n)) (lambd tol : F) :
  tol * lambd <= 0 ->
  forall fuel alpha, get_root fuel x lambd tol <> Done alpha.
Proof.
move=> h fuel alpha /get_root_done[_ h2 _].
by have := le_lt_trans (normr_ge0 _) h2; rewrite ltNge h.
Qed.

(** X3. For a positive budget and tolerance and an array with an entry,
    [get_root] returns, given enough fuel, exactly when
    [sum |x_i| > (1 - tol) * lambd]: also a little below the budget, where
    the threshold it returns is near 0, and never further below. *)
Theorem get_root_returns_iff (x : 'M[F]_(m.+1, n.+1)) (lambd tol : F) :
  0 < lambd -> 0 < tol ->
  (exists fuel alpha, get_root fuel x lambd tol = Done alpha)
  <-> lambd < l1_norm x + tol * lambd.
Proof.
move=> hl ht; have htl : 0 < tol * lambd by rewrite mulr_gt0.
split=> [[fuel [alpha /get_root_done[/andP[a0 _] hr _]]]|hband].
  have := residual_le x lambd a0; move: hr; rewrite ltr_norml => /andP[h1 _].
  by lra.
case: (ltP lambd (l1_norm x)) => hx.
  have [alpha [e _ _]] := get_root_converges hl ht hx.
  by exists (halvings_bound x lambd tol), alpha.
set d := l1_norm x + tol * lambd - lambd.
have hd : 0 < d by rewrite /d; lra.
set W := (m.+1 * n.+1)%:R * max_abs x.
have hW : 0 <= W by rewrite mulr_ge0 // max_abs_ge0.
have [|alpha e] := @get_root_loop_below _ _ _ (Num.bound (W / d)) x lambd tol
                     (max_abs x) hx hband (max_abs_ge0 x).
  have := @upper_nthrootP F (W / d) _ (leqnn _).
  rewrite ltr_pdivrMr // mulrC -/d => h; apply: lt_le_trans h _.
  by rewrite ler_pM2l // exprS ler_peMl // ?exprn_ge0 // ler1n.
by exists (Num.bound (W / d)).+1, alpha.
Qed.

End RootFinderExtras.

(** ** Further properties of the proximal operator *)

Section ProxExtras.

Variable F : realFieldType.
Variables m n : nat.
Implicit Types (x y p : 'M[F]_(m, n)) (lambd : F).

(** One entry [a] of the input and the entry [a - s] of the result: the
    entry is clipped at the threshold and keeps its sign. *)
Lemma clip_entry (a alpha s : F) :
  0 <= alpha -> s = Num.sg a * Num.max (`|a| - alpha) 0 ->
  `|a - s| = Num.min `|a| alpha /\ 0 <= (a - s) * a.
Proof.
move=> ha es.
have hs : Num.sg a = if a == 0 then 0 else if a < 0 then -1 else 1 by [].
move: hs es; rewrite /Num.max /Num.min (norm_if a); move: (Num.sg a) => sg.
case: (eqVneq a 0) => h3; case: (ltP a 0) => h2; case: ltP => h1 -> ->;
  rewrite ?mulr0 ?mul0r ?mulN1r ?mul1r ?subr0 ?opprK;
  rewrite ?(norm_if (_ - _)) ?(norm_if (_ + _)) ?(norm_if a).
all: split; do ?[case: ltP => ?]; nra.
Qed.

Lemma l1_norm_ge0 x : 0 <= l1_norm x.
Proof. by apply: sumr_ge0 => i _; apply: sumr_ge0 => j _. Qed.

Lemma l1_norm_eq0 x : l1_norm x <= 0 -> x = 0.
Proof.
move=> h; have /eqP : l1_norm x = 0 by apply/le_anti; rewrite h l1_norm_ge0.
have hrow i : 0 <= \sum_j `|x i j| by apply: sumr_ge0.
rewrite /l1_norm psumr_eq0 // => /allP h0; apply/matrixP => i j; rewrite mxE.
have hi : \sum_j `|x i j| == 0 by exact: (h0 i (mem_index_enum _)).
have hent j' : true -> 0 <= `|x i j'| by [].
move: hi; rewrite (psumr_eq0 _ hent) => /allP/(_ j (mem_index_enum _)).
by rewrite /= normr_eq0 => /eqP.
Qed.

(** The two ways [prox_max_norm] returns. *)
Lemma prox_max_norm_done (fuel : nat) x lambd p :
  prox_max_norm fuel x lambd = Done p ->
  (l1_norm x <= lambd /\ p = 0)
  \/ exists alpha,
       [/\ lambd < l1_norm x, get_root fuel x lambd (tol_default F) = Done alpha
         & p = x - soft_threshold x alpha].
Proof.
rewrite /prox_max_norm; case: (leP (l1_norm x) lambd) => hx.
  by case=> <-; left.
case e: (get_root _ _ _ _) => [alpha| |] //= [<-].
by right; exists alpha.
Qed.

(** X4. The result of [prox_max_norm] is the input clipped entry by entry
    at one level [c] in [[0, max |x_i|]]: every entry has magnitude
    [min(|x_ij|, c)] and keeps its sign, so no entry grows or changes
    sign. *)
Theorem prox_max_norm_clips (fuel : nat) x lambd p :
  prox_max_norm fuel x lambd = Done p ->
  exists c,
    [/\ 0 <= c <= max_abs x,
        forall i j, `|p i j| = Num.min `|x i j| c,
        forall i j, 0 <= p i j * x i j
      & forall i j, `|p i j| <= `|x i j|].
Proof.
case/prox_max_norm_done => [[hx ->]|[alpha [hx /get_root_done[h1 _ _] ->]]].
  exists 0; rewrite lexx max_abs_ge0; split=> // i j; rewrite !mxE ?mul0r //.
    by rewrite normr0 min_r.
  by rewrite normr0.
have ha : 0 <= alpha by case/andP: h1.
exists alpha; split=> // i j; rewrite !mxE.
- by have [-> _] := clip_entry ha (erefl (Num.sg (x i j) * _)).
- by have [_ ->] := clip_entry ha (erefl (Num.sg (x i j) * _)).
have [-> _] := clip_entry ha (erefl (Num.sg (x i j) * _)).
by rewrite ge_min lexx.
Qed.

(** X5. A call of [prox_max_norm] that returns was given a scale
    [lambd >= 0], and its result is within [(1 + tol) * lambd] of the
    input in L1 norm, with [tol = 1e-10]. *)
Theorem prox_max_norm_displacement (fuel : nat) x lambd p :
  prox_max_norm fuel x lambd = Done p ->
  0 <= lambd /\ l1_norm (x - p) <= (1 + tol_default F) * lambd.
Proof.
have ht := tol_default_gt0 F.
case/prox_max_norm_done => [[hx ->]|[alpha [hx /get_root_done[h1 h2 _] ->]]].
  have hl : 0 <= lambd := le_trans (l1_norm_ge0 x) hx.
  by rewrite subr0; split=> //; apply: le_trans hx _; nra.
have ha : 0 <= alpha by case/andP: h1.
have hl : 0 < lambd.
  have := le_lt_trans (normr_ge0 _) h2.
  by rewrite pmulr_rgt0.
rewrite opprB addrC subrK (l1_norm_soft_threshold x lambd ha); split; first exact: ltW.
by move: h2; rewrite ltr_norml => /andP[_]; lra.
Qed.

(** X6. [prox_max_norm] is odd: the root finder reads the input through
    [np.abs], so negating the input negates the result and changes nothing
    else, for every fuel. *)
Theorem prox_max_norm_odd (fuel : nat) x lambd :
  prox_max_norm fuel (- x) lambd
  = prox_max_norm fuel x lambd >>= fun p => Done (- p).
Proof.
have habs i j : `|(- x) i j| = `|x i j| by rewrite mxE normrN.
have hl1 : l1_norm (- x) = l1_norm x.
  by apply: eq_bigr => i _; apply: eq_bigr => j _.
have hroot : get_root fuel (- x) lambd (tol_default F)
             = get_root fuel x lambd (tol_default F).
  rewrite /get_root /np_max_abs (max_abs_abs habs).
  by case: ifP => //= _; exact: get_root_loop_abs.
rewrite /prox_max_norm hl1 hroot; case: ifP => _ /=.
  by congr Done; apply/matrixP => i j; rewrite !mxE oppr0.
case: (get_root _ _ _ _) => //= alpha; congr Done.
apply/matrixP => i j; rewrite !mxE normrN sgrN mulNr.
by rewrite opprK opprB addrC.
Qed.

(** With a negative scale [prox_max_norm] has no result: the sum of
    absolute values is above it, and the exit test of the root finder
    compares an absolute value with a negative number. *)
Lemma prox_max_norm_scale_lt0 (fuel : nat) x lambd p :
  lambd < 0 -> prox_max_norm fuel x lambd <> Done p.
Proof.
move=> hl /prox_max_norm_done[[hx _]|[alpha [_ /get_root_done[_ h2 _] _]]].
  by have := le_lt_trans (le_trans (l1_norm_ge0 x) hx) hl; rewrite ltxx.
have := le_lt_trans (normr_ge0 _) h2.
by rewrite pmulr_rgt0 ?tol_default_gt0 // ltNge (ltW hl).
Qed.

(** X7. For a scale [lambd <= 0] [prox_max_norm] returns only in the
    trivial case: [lambd = 0] and [x = 0], with the result [0]. For a
    negative scale, and for a zero scale with a non-zero input, no fuel
    gives a result. *)
Theorem prox_max_norm_nonpositive_scale (fuel : nat) x lambd p :
  lambd <= 0 -> prox_max_norm fuel x lambd = Done p ->
  [/\ lambd = 0, x = 0 & p = 0].
Proof.
move=> hl /prox_max_norm_done[[hx ->]|[alpha [_ /get_root_done[_ h2 _] _]]].
  have h0 : l1_norm x <= 0 := le_trans hx hl.
  split=> //; last exact: l1_norm_eq0.
  by apply/le_anti; rewrite hl (le_trans (l1_norm_ge0 x) hx).
have := le_lt_trans (normr_ge0 _) h2.
by rewrite pmulr_rgt0 ?tol_default_gt0 // ltNge hl.
Qed.

(** X8. On an array without entries [get_root] raises [ValueError]
    ([np.max] has nothing to reduce); [prox_max_norm] returns the empty
    array of zeros when [lambd >= 0], without reaching the root finder,
    and raises [ValueError] when [lambd < 0]. *)
Theorem empty_array_behaviour x :
  (m == 0)%N || (n == 0)%N ->
  (forall fuel lambd tol, get_root fuel x lambd tol = Raised ValueError)
  /\ (forall fuel lambd,
        prox_max_norm fuel x lambd
        = if 0 <= lambd then Done (const_mx 0) else Raised ValueError).
Proof.
move=> he; have hg fuel lambd tol : get_root fuel x lambd tol = Raised ValueError.
  by rewrite /get_root /np_max_abs he.
split=> // fuel lambd.
by rewrite /prox_max_norm (l1_norm_empty x he) hg; case: ifP.
Qed.

End ProxExtras.

(** ** Further properties of the rank projection *)

Section RankExtras.

Variable F : realFieldType.
Variable svd : forall m n : nat, 'M[F]_(m, n) -> svd_result F m n.
Variables m n : nat.
Implicit Types (A : 'M[F]_(m, n)) (r : int).

Local Notation proj_rank := (proj_rank svd).

(** A matrix whose rank is at most the start of the slice is left as it
    is, when the decomposition NumPy returns for it is a singular value
    decomposition. *)
Lemma proj_rank_id A r :
  svd_spec A (svd A) -> (\rank A <= slice_start r (minn m n))%N ->
  proj_rank A r = A.
Proof.
rewrite /proj_rank; case e: (svd A) => [[U t] V] hA hr.
have -> : zero_from t r = t.
  apply/rowP => j; rewrite mxE; case: leqP => // hj.
  by rewrite (svd_spec_tail hA hr hj).
by case: hA.
Qed.

(** X9. Under the contract of [np.linalg.svd] for [A], the projection
    returns [A] itself when the rank of [A] is at most [r], and for every
    [r >= min(m, n)]: a rank target above the number of singular values is
    accepted and truncates nothing. *)
Theorem proj_rank_keeps_low_rank A :
  svd_spec A (svd A) ->
  (forall r, (\rank A)%:Z <= r -> proj_rank A r = A)
  /\ (forall r, (minn m n)%:Z <= r -> proj_rank A r = A).
Proof.
move=> hA.
have h1 r : (\rank A)%:Z <= r -> proj_rank A r = A.
  by case: r => // p; rewrite lez_nat => hr; exact: proj_rank_id.
split=> // r hr; apply: h1; apply: le_trans hr.
by rewrite lez_nat leq_min rank_leq_row rank_leq_col.
Qed.

(** X10. A negative rank target is accepted: [S[r:]] then counts from the
    end, so [r = -(p + 1)] zeroes the last [p + 1] singular values. The
    result has rank at most [min(m, n) - (p + 1)], and is the zero matrix
    when [p + 1 >= min(m, n)]. *)
Theorem proj_rank_negative_target A (p : nat) :
  (\rank (proj_rank A (Negz p)) <= minn m n - p.+1)%N
  /\ ((minn m n <= p.+1)%N -> proj_rank A (Negz p) = 0).
Proof.
split; first exact: (rank_proj_rank svd A (Negz p)).
move=> hp; apply/eqP; rewrite -mxrank_eq0 -leqn0.
apply: leq_trans (rank_proj_rank svd A (Negz p)) _.
by rewrite /= leqn0 subn_eq0.
Qed.

End RankExtras.

(** ** Further properties of the fixed-point step and the driver *)

Section DriverExtras.

Variable F : realFieldType.
Variable svd : forall m n : nat, 'M[F]_(m, n) -> svd_result F m n.
Variable norm_fro : forall m n : nat, 'M[F]_(m, n) -> F.
Variable norm_nuc : forall m n : nat, 'M[F]_(m, n) -> F.
Variable matrix_rank : forall m n : nat, 'M[F]_(m, n) -> nat.
Variables m n : nat.
Variable D_global : 'M[F]_(m, n).
Implicit Types (Z D X : 'M[F]_(m, n)) (lambd : F) (r : int) (ord : norm_ord).
Implicit Types (st : driver_state F m n).

Local Notation T := (T svd D_global).
Local Notation proj_rank := (proj_rank svd).
Local Notation driver_body :=
  (driver_body svd norm_fro norm_nuc matrix_rank D_global).
Local Notation driver_loop :=
  (driver_loop svd norm_fro norm_nuc matrix_rank D_global).
Local Notation driver_run :=
  (driver_run svd norm_fro norm_nuc matrix_rank D_global).
Local Notation compute_low_rank_est :=
  (compute_low_rank_est svd norm_fro norm_nuc matrix_rank D_global).
Local Notation iterate_Z := (iterate_Z svd D_global).
Local Notation iterate_X := (iterate_X svd D_global).
Local Notation diagnostics := (diagnostics norm_fro norm_nuc matrix_rank).
Local Notation st_entries := (@st_entries F m n).
Local Notation st_sized := (@st_sized F m n).

(** What a printed line shows: the index and the four diagnostics. *)
Local Notation line_values :=
  (fun l : log_line F =>
     (log_k l, (log_max l, log_fro l, log_rank l, log_nuc l))).

Lemma max_abs_eq0 D : max_abs D = 0 -> D = 0.
Proof.
move=> h; apply/matrixP => i j; rewrite mxE; apply/eqP.
by rewrite -normr_le0 -h max_abs_ge.
Qed.

(** The lines a pass adds to the report. *)
Lemma driver_body_out fuel D lambd r ord st k st' :
  driver_body fuel D lambd r ord st k = Done st' ->
  [seq line_values l | l <- st_out st']
  = [seq line_values l | l <- st_out st]
    ++ [seq (k', st_entries st' k') | k' <- [:: k] & (k' %% 10 == 0)%N].
Proof.
rewrite /driver_body; case eT: (T _ _ _ _ _) => [[X Z']| |] //=.
case e1: (np_max_abs _) => [v1| |] //=; case e2: (np_max_abs _) => [v2| |] //=.
case=> <- /=; case: ifP => _; last by rewrite cats0.
by rewrite map_rcons -cats1 /st_entries /entries /= !nth_set_nth /= eqxx.
Qed.

(** The report after the passes [k0 .. k0 + cnt - 1]. *)
Lemma driver_loop_out fuel D lambd r ord N cnt k0 st st' (ks0 : seq nat) :
  driver_loop fuel D lambd r ord (iota k0 cnt) st = Done st' ->
  iterate_Z fuel D lambd r ord k0 = Done (st_Z st) ->
  st_sized N st -> (k0 + cnt <= N)%N ->
  all (fun k => k < k0)%N ks0 ->
  [seq line_values l | l <- st_out st] = [seq (k, st_entries st k) | k <- ks0] ->
  [seq line_values l | l <- st_out st']
  = [seq (k, st_entries st' k)
    | k <- ks0 ++ [seq k <- iota k0 cnt | (k %% 10 == 0)%N]].
Proof.
elim: cnt k0 st ks0 => [|cnt IH] k0 st ks0 /=.
  by case=> <- _ _ _ _ ->; rewrite cats0.
case eb: (driver_body _ _ _ _ _ _ _) => [st1| |] //= hloop hZ hs hle hks hout.
have [X [Z' [eT eZ' eX hsz hent]]] := driver_body_done eb.
have [hZ1 _] := iterate_Z_step hZ eT; rewrite -eZ' in hZ1.
have hk0 : (k0 < N)%N by apply: leq_trans hle; rewrite addnS ltnS leq_addr.
have hle1 : (k0.+1 + cnt <= N)%N by rewrite addSnnS.
have hold : [seq (k, st_entries st k) | k <- ks0]
            = [seq (k, st_entries st1 k) | k <- ks0].
  apply/eq_in_map => k /(allP hks) hk.
  by rewrite hent ltn_eqF.
set ks1 := ks0 ++ [seq k' <- [:: k0] | (k' %% 10 == 0)%N].
have hks1 : all (fun k => k < k0.+1)%N ks1.
  rewrite all_cat; apply/andP; split.
    by apply: sub_all hks => k /ltnW.
  by rewrite /=; case: ifP => //= _; rewrite ltnSn.
have hout1 : [seq line_values l | l <- st_out st1]
             = [seq (k, st_entries st1 k) | k <- ks1].
  by rewrite (driver_body_out eb) hout hold /ks1 map_cat.
rewrite (IH _ _ _ hloop hZ1 (hsz _ hk0 hs) hle1 hks1 hout1) /ks1 -catA.
by congr (map _ (_ ++ _)); rewrite /=; case: ifP.
Qed.

(** X11. The progress report has one line for each pass [k] that is a
    multiple of 10, in order, and the line of pass [k] shows [k] and the
    four values stored at index [k] of the arrays the driver returns. *)
Theorem driver_report_lines fuel D r lambd ord (iters : nat) st :
  driver_run fuel D r lambd ord iters = Done st ->
  [seq (log_k l, (log_max l, log_fro l, log_rank l, log_nuc l))
  | l <- st_out st]
  = [seq (k, entries (st_err_max st) (st_err_fro st) (st_rank st)
               (st_norm st) k)
    | k <- iota 0 iters & (k %% 10 == 0)%N].
Proof.
rewrite /driver_run; set st0 := DriverState _ _ _ _ _ _ _ => hloop.
have hs : st_sized iters st0 by split; rewrite /= size_nseq.
exact: (driver_loop_out (ks0 := [::]) hloop (erefl _) hs (leqnn _)).
Qed.

(** The step a line of the report shows, for the passes
    [k0 .. k0 + cnt - 1]. *)
Lemma driver_loop_out_step fuel D lambd r ord cnt k0 st st' (ks0 : seq nat) :
  driver_loop fuel D lambd r ord (iota k0 cnt) st = Done st' ->
  iterate_Z fuel D lambd r ord k0 = Done (st_Z st) ->
  [seq Done (log_step l) | l <- st_out st]
  = [seq (iterate_Z fuel D lambd r ord k >>= fun Z =>
          iterate_Z fuel D lambd r ord k.+1 >>= fun Z' =>
          Done (norm_fro (Z' - Z))) | k <- ks0] ->
  [seq Done (log_step l) | l <- st_out st']
  = [seq (iterate_Z fuel D lambd r ord k >>= fun Z =>
          iterate_Z fuel D lambd r ord k.+1 >>= fun Z' =>
          Done (norm_fro (Z' - Z)))
    | k <- ks0 ++ [seq k <- iota k0 cnt | (k %% 10 == 0)%N]].
Proof.
elim: cnt k0 st ks0 => [|cnt IH] k0 st ks0 /=.
  by case=> <- _ ->; rewrite cats0.
case eb: (driver_body _ _ _ _ _ _ _) => [st1| |] //= hloop hZ hout.
have [X [Z' [eT eZ' _ _ _]]] := driver_body_done eb.
have [hZ1 _] := iterate_Z_step hZ eT.
have hout1 : [seq Done (log_step l) | l <- st_out st1]
  = [seq (iterate_Z fuel D lambd r ord k >>= fun Z =>
          iterate_Z fuel D lambd r ord k.+1 >>= fun Z' =>
          Done (norm_fro (Z' - Z)))
    | k <- ks0 ++ [seq k' <- [:: k0] | (k' %% 10 == 0)%N]].
  move: eb; rewrite /driver_body eT /=.
  case e1: (np_max_abs _) => [v1| |] //=; case e2: (np_max_abs _) => [v2| |] //=.
  case=> <- /=; case: ifP => _; rewrite ?cats0 // map_rcons map_cat hout /=.
  by rewrite -cats1 hZ /= eT.
rewrite -eZ' in hZ1.
rewrite (IH _ _ _ hloop hZ1 hout1) -catA.
by congr (map _ (_ ++ _)); rewrite /=; case: ifP.
Qed.

(** X12. The step that the line of pass [k] shows is the Frobenius norm,
    as NumPy computes it, of the change of the splitting variable in that
    pass: of [Z] after the pass minus the copy [Z_p] taken before it. *)
Theorem driver_report_steps fuel D r lambd ord (iters : nat) st :
  driver_run fuel D r lambd ord iters = Done st ->
  [seq Done (log_step l) | l <- st_out st]
  = [seq (iterate_Z fuel D lambd r ord k >>= fun Z =>
          iterate_Z fuel D lambd r ord k.+1 >>= fun Z' =>
          Done (norm_fro (Z' - Z)))
    | k <- iota 0 iters & (k %% 10 == 0)%N].
Proof.
rewrite /driver_run => hloop.
exact: (driver_loop_out_step (ks0 := [::]) hloop (erefl _)).
Qed.

(** X13. The [ord] argument is dead: [T] does not read it, and the driver
    only passes it to [T], so every value of [ord] gives the same result. *)
Theorem compute_low_rank_est_ignores_ord fuel D r lambd ord ord'
    (iters : int) :
  compute_low_rank_est fuel D r lambd ord iters
  = compute_low_rank_est fuel D r lambd ord' iters.
Proof.
have hloop ks st : driver_loop fuel D lambd r ord ks st
                   = driver_loop fuel D lambd r ord' ks st.
  elim: ks st => [|k ks IH] st //=.
  have -> : driver_body fuel D lambd r ord st k
            = driver_body fuel D lambd r ord' st k by [].
  by case: (driver_body _ _ _ _ _ _ _) => //= st1; exact: IH.
by rewrite /compute_low_rank_est /driver_run; case: iters => // k; rewrite hloop.
Qed.

(** X14. An iteration budget of 0 makes the driver raise
    [UnboundLocalError] at [return X], as no pass has bound [X]; a negative
    budget makes [np.zeros] raise [ValueError]. Neither depends on the
    other arguments. *)
Theorem compute_low_rank_est_without_pass fuel D r lambd ord :
  compute_low_rank_est fuel D r lambd ord 0 = Raised UnboundLocalError
  /\ forall k : nat,
       compute_low_rank_est fuel D r lambd ord (Negz k) = Raised ValueError.
Proof. by []. Qed.

(** X15. The first pass projects [D] itself: entry 0 of the four arrays
    holds the diagnostics of the plain truncated decomposition
    [proj_rank(D, r)], whatever the step size and the module-level [D]; and
    with [iters = 1] that projection is what the driver returns. *)
Theorem compute_low_rank_est_first_pass fuel D r lambd ord (iters : nat) est :
  compute_low_rank_est fuel D r lambd ord iters = Done est ->
  entries (est_err_max est) (est_err_fro est) (est_rank est) (est_norm est) 0
  = diagnostics (proj_rank D r) D
  /\ (iters = 1%N -> est_X est = proj_rank D r).
Proof.
case/compute_low_rank_est_done => hi _ hlast hent.
have h0 X : iterate_X fuel D lambd r ord 0 = Done X -> X = proj_rank D r.
  rewrite /iterate_X /=; case eT: (T _ _ _ _ _) => [[X' Z']| |] //= [<-].
  by have [] := T_done eT.
split=> [|e1]; last by apply: h0; move: hlast; rewrite e1.
by have [X /h0 eX ->] := hent 0%N hi; rewrite eX.
Qed.

(** X16. When the target is not the zero matrix, every entry of [err_max]
    that a call returns is a finite non-negative number. *)
Theorem err_max_finite_for_nonzero_target fuel D r lambd ord (iters : nat)
    est :
  D != 0 -> compute_low_rank_est fuel D r lambd ord iters = Done est ->
  forall k, (k < iters)%N ->
    exists2 v, nth (Finite 0) (est_err_max est) k = Finite v & 0 <= v.
Proof.
move=> hD /compute_low_rank_est_done[_ _ _ hent] k /hent[X _].
rewrite /entries /diagnostics => -[-> _ _ _].
have hM : max_abs D != 0 by apply: contraNneq hD => /max_abs_eq0 ->.
exists (max_abs (X - D) / max_abs D); first by rewrite /np_div (negbTE hM).
by rewrite divr_ge0 // max_abs_ge0.
Qed.

(** X17. With a negative step size neither the fixed-point step nor the
    driver returns, whatever the fuel, on arrays with an entry: the proximal
    operator is handed a negative scale. *)
Theorem negative_step_size_never_returns fuel Z D r lambd ord (iters : nat) :
  lambd < 0 ->
  (forall XZ, T fuel Z lambd r ord <> Done XZ)
  /\ ((0 < iters)%N ->
      forall est, compute_low_rank_est fuel D r lambd ord iters <> Done est).
Proof.
move=> hl.
have hT Z0 XZ : T fuel Z0 lambd r ord <> Done XZ.
  case: XZ => X Z' /T_done[_ [P eP _]].
  exact: (prox_max_norm_scale_lt0 hl eP).
split=> // hi est /compute_low_rank_est_done[_ _ hlast _].
move: hlast; rewrite /iterate_X.
case: (iterate_Z _ _ _ _ _ _) => //= Z0.
by case eT: (T _ _ _ _ _) => [XZ| |] //=; case: (hT _ _ eT).
Qed.

End DriverExtras.

Section ExactRecovery.

Variable F : realFieldType.
Variable svd : forall m n : nat, 'M[F]_(m, n) -> svd_result F m n.
Variable norm_fro : forall m n : nat, 'M[F]_(m, n) -> F.
Variable norm_nuc : forall m n : nat, 'M[F]_(m, n) -> F.
Variable matrix_rank : forall m n : nat, 'M[F]_(m, n) -> nat.
Variables m n : nat.
Variable D : 'M[F]_(m.+1, n.+1).
Implicit Types (lambd : F) (r : int) (ord : norm_ord).

Local Notation T := (T svd D).
Local Notation driver_loop :=
  (driver_loop svd norm_fro norm_nuc matrix_rank D).
Local Notation compute_low_rank_est :=
  (compute_low_rank_est svd norm_fro norm_nuc matrix_rank D).

(** A target that the projection leaves as it is is a fixed point of the
    step, for a non-negative step size: the proximal operator is handed
    the zero matrix. *)
Lemma T_fixed_target fuel lambd r ord :
  proj_rank svd D r = D -> 0 <= lambd -> T fuel D lambd r ord = Done (D, D).
Proof.
move=> hD hl; rewrite /T hD.
have -> : 2%:R *: D - D - D = 0.
  by rewrite scaler_nat mulr2n addrK subrr.
have h0 : l1_norm (0 : 'M[F]_(m.+1, n.+1)) <= lambd.
  by rewrite /l1_norm big1 // => i _; rewrite big1 // => j _; rewrite mxE normr0.
rewrite (prox_max_norm_small _ h0) /=.
congr (Done (_, _)); apply/matrixP => i j; rewrite !mxE.
by rewrite addr0 addrK.
Qed.

Lemma iterate_Z_fixed_target fuel lambd r ord k :
  proj_rank svd D r = D -> 0 <= lambd ->
  iterate_Z svd D fuel D lambd r ord k = Done D.
Proof.
move=> hD hl; elim: k => [|k IH] //=.
by rewrite IH /= T_fixed_target.
Qed.

Lemma driver_loop_fixed_target fuel lambd r ord ks st :
  proj_rank svd D r = D -> 0 <= lambd -> st_Z st = D ->
  exists2 st', driver_loop fuel D lambd r ord ks st = Done st' & st_Z st' = D.
Proof.
move=> hD hl; elim: ks st => [|k ks IH] st hst; first by exists st.
rewrite /= /driver_body hst T_fixed_target //=.
by apply: IH.
Qed.

(** On such a target the driver returns, for every fuel. *)
Lemma compute_low_rank_est_fixed_target fuel lambd r ord (iters : nat) :
  proj_rank svd D r = D -> 0 <= lambd -> (0 < iters)%N ->
  exists est, compute_low_rank_est fuel D r lambd ord iters = Done est.
Proof.
move=> hD hl hi; rewrite /compute_low_rank_est /driver_run.
set st0 := DriverState _ _ _ _ _ _ _.
have [st' e _] := driver_loop_fixed_target fuel ord (iota 0 iters) hD hl
                    (erefl (st_Z st0)).
have hs : st_sized iters st0 by split; rewrite /= size_nseq.
have [_ _ _ _] := driver_loop_done (N := iters) e (erefl _) hs (leqnn _).
case: iters hi {hs} st0 e => // k _ st0 e [X eX _].
by rewrite e /= eX; eexists.
Qed.

(** X18. A target [D] of rank at most [r] is recovered exactly, when it is
    also the module-level [D] that [T] reads and the step size is
    non-negative: for every fuel, fuel 0 included, the driver returns
    [X = D], and every entry of the two error arrays is the quotient of 0
    by the norm of [D]. *)
Theorem low_rank_target_is_recovered fuel r lambd ord (iters : nat) :
  svd_spec D (svd D) -> (\rank D)%:Z <= r -> 0 <= lambd -> (0 < iters)%N ->
  exists est,
    [/\ compute_low_rank_est fuel D r lambd ord iters = Done est,
        est_X est = D
      & forall k, (k < iters)%N ->
          nth (Finite 0) (est_err_max est) k = np_div 0 (max_abs D) /\
          nth (Finite 0) (est_err_fro est) k
          = np_div (norm_fro (0 : 'M[F]_(m.+1, n.+1))) (norm_fro D)].
Proof.
move=> hsvd hr hl hi.
have hD : proj_rank svd D r = D.
  by case: r hr => // p; rewrite lez_nat => hp; exact: proj_rank_id.
have hX k : iterate_X svd D fuel D lambd r ord k = Done D.
  by rewrite /iterate_X iterate_Z_fixed_target //= T_fixed_target.
have [est e] := compute_low_rank_est_fixed_target fuel ord hD hl hi.
have [_ _ hlast hent] := compute_low_rank_est_done e.
exists est; split=> //; first by move: hlast; rewrite hX => -[].
move=> k /hent[X]; rewrite hX => -[<-].
by rewrite /entries /diagnostics subrr max_abs0 => -[-> -> _ _].
Qed.

End ExactRecovery.

(** ** A further property of the root finder on binary64 numbers *)



(** ** The further properties at concrete inputs *)

Section ExtraExamples.

Local Notation svd := (@svd_diag rat).
Local Notation ex_driver :=
  (compute_low_rank_est svd (@sum_squares rat) (@nuc_diag rat)
     (@exact_rank rat)).
Local Notation ex_run :=
  (driver_run svd (@sum_squares rat) (@nuc_diag rat) (@exact_rank rat)).

Lemma svd_spec_ex_D : svd_spec ex_D (svd ex_D).
Proof. exact: svd_diag_spec_pid. Qed.

Lemma rank_ex_D : (\rank ex_D)%:Z <= 2 :> int.
Proof. by rewrite lez_nat rank_leq_row. Qed.

Lemma proj_rank_ex_D : proj_rank svd ex_D 2 = ex_D.
Proof. exact: (proj_rank_pid rat 2 3 2 2). Qed.

Lemma get_root_returns_in_range_witness :
  [/\ 0 <= (1 : rat) <= max_abs (const_mx 2 : 'M[rat]_(1, 1)),
      `|residual (const_mx 2 : 'M[rat]_(1, 1)) 1 1| < tol_default rat * 1
    & (0 < 1)%N && (0 < 1)%N].
Proof.
apply: (@get_root_returns_in_range rat 1 1 1).
exact: get_root_first_midpoint.
Defined.

Lemma get_root_needs_positive_tolerance_witness :
  ~ exists fuel alpha, get_root fuel ex_x 0 (tol_default rat) = Done alpha.
Proof.
case=> fuel [alpha]; apply: get_root_needs_positive_tolerance.
by rewrite mulr0.
Defined.

Lemma get_root_returns_iff_witness :
  (exists fuel alpha, get_root fuel ex_x 1 (tol_default rat) = Done alpha)
  <-> 1 < l1_norm ex_x + tol_default rat * 1.
Proof.
apply: (@get_root_returns_iff rat 1 2 ex_x).
- exact: ltr01.
- exact: tol_default_gt0.
Defined.

Lemma prox_max_norm_clips_witness :
  exists c : rat,
    [/\ 0 <= c <= max_abs (const_mx (2 + tol_default rat) : 'M[rat]_(1, 1)),
        forall i j,
          `|(const_mx (1 + tol_default rat / 2) : 'M[rat]_(1, 1)) i j|
          = Num.min `|(const_mx (2 + tol_default rat) : 'M[rat]_(1, 1)) i j| c,
        forall i j,
          0 <= (const_mx (1 + tol_default rat / 2) : 'M[rat]_(1, 1)) i j
               * (const_mx (2 + tol_default rat) : 'M[rat]_(1, 1)) i j
      & forall i j,
          `|(const_mx (1 + tol_default rat / 2) : 'M[rat]_(1, 1)) i j|
          <= `|(const_mx (2 + tol_default rat) : 'M[rat]_(1, 1)) i j|].
Proof.
apply: (@prox_max_norm_clips rat 1 1 1 _ 1).
exact: (proj1 (prox_max_norm_inexact rat)).
Defined.

Lemma prox_max_norm_displacement_witness :
  0 <= (1 : rat)
  /\ l1_norm ((const_mx (2 + tol_default rat) : 'M[rat]_(1, 1))
              - const_mx (1 + tol_default rat / 2))
     <= (1 + tol_default rat) * 1.
Proof.
apply: (@prox_max_norm_displacement rat 1 1 1).
exact: (proj1 (prox_max_norm_inexact rat)).
Defined.

Lemma prox_max_norm_nonpositive_scale_witness :
  [/\ (0 : rat) = 0, (0 : 'M[rat]_(2, 3)) = 0
    & (const_mx 0 : 'M[rat]_(2, 3)) = 0].
Proof.
apply: (@prox_max_norm_nonpositive_scale rat 2 3 0); first exact: lexx.
apply: prox_max_norm_small.
by rewrite /l1_norm big1 // => i _; rewrite big1 // => j _; rewrite mxE normr0.
Defined.

Lemma empty_array_behaviour_witness :
  (forall fuel lambd tol,
     get_root fuel (0 : 'M[rat]_(0, 3)) lambd tol = Raised ValueError)
  /\ (forall fuel lambd,
        prox_max_norm fuel (0 : 'M[rat]_(0, 3)) lambd
        = if 0 <= lambd then Done (const_mx 0) else Raised ValueError).
Proof. exact: (@empty_array_behaviour rat 0 3 0 isT). Defined.

Lemma proj_rank_keeps_low_rank_witness :
  (forall r, (\rank ex_D)%:Z <= r -> proj_rank svd ex_D r = ex_D)
  /\ (forall r, (minn 2 3)%:Z <= r -> proj_rank svd ex_D r = ex_D).
Proof. exact: (proj_rank_keeps_low_rank svd_spec_ex_D). Defined.

Lemma proj_rank_negative_target_witness :
  proj_rank svd ex_D (Negz 1) = 0.
Proof. exact: (proj2 (proj_rank_negative_target svd ex_D 1) isT). Defined.

Lemma driver_report_lines_witness :
  exists st,
    ex_run ex_D 0 ex_D 2 1 OrdFro 12%N = Done st
    /\ [seq (log_k l, (log_max l, log_fro l, log_rank l, log_nuc l))
       | l <- st_out st]
       = [seq (k, entries (st_err_max st) (st_err_fro st) (st_rank st)
                    (st_norm st) k)
         | k <- iota 0 12 & (k %% 10 == 0)%N].
Proof.
have [st e _] :=
  driver_loop_fixed_target (@sum_squares rat) (@nuc_diag rat) (@exact_rank rat)
    0 OrdFro (iota 0 12) proj_rank_ex_D ler01
    (erefl (st_Z (DriverState ex_D None (nseq 12 (Finite 0))
                    (nseq 12 (Finite 0)) (nseq 12 (Finite 0))
                    (nseq 12 (Finite 0)) [::]))).
by exists st; split=> //; apply: driver_report_lines e.
Defined.

Lemma driver_report_steps_witness :
  exists st,
    ex_run ex_D 0 ex_D 2 1 OrdFro 12%N = Done st
    /\ [seq Done (log_step l) | l <- st_out st]
       = [seq (iterate_Z svd ex_D 0 ex_D 1 2 OrdFro k >>= fun Z =>
               iterate_Z svd ex_D 0 ex_D 1 2 OrdFro k.+1 >>= fun Z' =>
               Done (sum_squares (Z' - Z)))
         | k <- iota 0 12 & (k %% 10 == 0)%N].
Proof.
have [st e _] :=
  driver_loop_fixed_target (@sum_squares rat) (@nuc_diag rat) (@exact_rank rat)
    0 OrdFro (iota 0 12) proj_rank_ex_D ler01
    (erefl (st_Z (DriverState ex_D None (nseq 12 (Finite 0))
                    (nseq 12 (Finite 0)) (nseq 12 (Finite 0))
                    (nseq 12 (Finite 0)) [::]))).
by exists st; split=> //; apply: driver_report_steps e.
Defined.

Lemma negative_step_size_never_returns_witness :
  (forall XZ, T svd ex_D 5 ex_D (-1) 2 OrdMax <> Done XZ)
  /\ ((0 < 3)%N ->
      forall est, ex_driver ex_D 5 ex_D 2 (-1) OrdMax 3%N <> Done est).
Proof.
apply: negative_step_size_never_returns.
by rewrite oppr_lt0 ltr01.
Defined.

Lemma low_rank_target_is_recovered_witness :
  exists est,
    [/\ ex_driver ex_D 0 ex_D 2 1 OrdFro 3%N = Done est,
        est_X est = ex_D
      & forall k, (k < 3)%N ->
          nth (Finite 0) (est_err_max est) k = np_div 0 (max_abs ex_D) /\
          nth (Finite 0) (est_err_fro est) k
          = np_div (sum_squares (0 : 'M[rat]_(2, 3))) (sum_squares ex_D)].
Proof.
apply: (@low_rank_target_is_recovered rat svd (@sum_squares rat)
          (@nuc_diag rat) (@exact_rank rat) 1 2 ex_D 0 2 1 OrdFro 3).
- exact: svd_spec_ex_D.
- exact: rank_ex_D.
- exact: ler01.
- exact: isT.
Defined.

Lemma compute_low_rank_est_first_pass_witness :
  exists est,
    ex_driver ex_D 0 ex_D 2 1 OrdFro 1%N = Done est
    /\ (entries (est_err_max est) (est_err_fro est) (est_rank est)
          (est_norm est) 0
        = diagnostics (@sum_squares rat) (@nuc_diag rat) (@exact_rank rat)
            (proj_rank svd ex_D 2) ex_D
        /\ (1%N = 1%N -> est_X est = proj_rank svd ex_D 2)).
Proof.
have [est e] :=
  compute_low_rank_est_fixed_target (@sum_squares rat) (@nuc_diag rat)
    (@exact_rank rat) 0 OrdFro (iters := 1) proj_rank_ex_D ler01 isT.
by exists est; split=> //; apply: compute_low_rank_est_first_pass e.
Defined.

Lemma ex_D_neq0 : ex_D != 0.
Proof. by apply/matrix0Pn; exists 0, 0; rewrite mxE. Qed.

Lemma err_max_finite_for_nonzero_target_witness :
  exists est,
    ex_driver ex_D 0 ex_D 2 1 OrdFro 3%N = Done est
    /\ forall k, (k < 3)%N ->
         exists2 v, nth (Finite 0) (est_err_max est) k = Finite v & 0 <= v.
Proof.
have [est e] :=
  compute_low_rank_est_fixed_target (@sum_squares rat) (@nuc_diag rat)
    (@exact_rank rat) 0 OrdFro (iters := 3) proj_rank_ex_D ler01 isT.
by exists est; split=> //; apply: err_max_finite_for_nonzero_target ex_D_neq0 e.
Defined.


End ExtraExamples.
